(** * chatbot-app: the chat endpoint and the chat page

    A shallow embedding of [src/app/api/chat/route.ts] (the rate limiter,
    [clampMessages] and the [POST] handler) and of the [send] action of
    [src/app/page.tsx], with the properties the specification states
    about them.

    Conventions.
    - A JavaScript string is the list of its UTF-16 code units, so that
      [length], [slice] and [trim] count what the engine counts.
    - Numbers that the code computes with are millisecond timestamps and
      small counters: integers far below 2^53, modelled in [Z].
    - [Date.now()], the parsed request body and the answer of the model
      provider are inputs of the handler.
    - An exception is a value of [result]; [try]/[catch] is a [match]. *)

From Stdlib Require Import PrimFloat.
From stdpp Require Import base numbers list strings pretty gmap.

Local Open Scope Z_scope.
Set Warnings "-register-all,-inexact-float".

(** ** JavaScript strings *)

Abbreviation jsstring := (list N).

(** An ASCII literal of the source as code units. *)
Definition lit (s : string) : jsstring :=
  Ascii.N_of_ascii <$> String.list_ascii_of_string s.

(** [String(n)] for an integral number [n]: its decimal rendering. *)
Definition js_String (n : Z) : jsstring := lit (pretty n).

(** Relative index of [Array.prototype.slice] and
    [String.prototype.slice]: a negative index counts from the end, and
    the result is clamped to [0, len]. *)
Definition rel_index (i len : Z) : Z :=
  if i <? 0 then Z.max (len + i) 0 else Z.min i len.

(** [x.slice(start, end)]; [end_ = None] is an omitted second argument. *)
Definition js_slice {A} (start : Z) (end_ : option Z) (l : list A) : list A :=
  let len := Z.of_nat (length l) in
  let k := rel_index start len in
  let final := match end_ with None => len | Some e => rel_index e len end in
  take (Z.to_nat (final - k)) (drop (Z.to_nat k) l).

(** WhiteSpace and LineTerminator code points of ECMAScript, the ones
    [String.prototype.trim] strips. All of them are single code units. *)
Definition is_js_space (c : N) : bool :=
  let c := Z.of_N c in
  (c =? 9) || (c =? 10) || (c =? 11) || (c =? 12) || (c =? 13) ||
  (c =? 32) || (c =? 160) || (c =? 5760) ||
  ((8192 <=? c) && (c <=? 8202)) ||
  (c =? 8232) || (c =? 8233) || (c =? 8239) || (c =? 8287) ||
  (c =? 12288) || (c =? 65279).

Fixpoint trim_start (s : jsstring) : jsstring :=
  match s with
  | c :: s' => if is_js_space c then trim_start s' else s
  | [] => []
  end.

Definition trim_end (s : jsstring) : jsstring :=
  reverse (trim_start (reverse s)).

(** [s.trim()] *)
Definition trim (s : jsstring) : jsstring := trim_end (trim_start s).

(** ** JavaScript values

    The values [JSON.parse] produces, and [undefined] for an absent
    property. An object lists its own properties, each name once.
    [VNum] carries an integral number (its decimal rendering
    is what [toString] gives below 1e21); a number with a fraction
    would differ only in that rendering. *)
Inductive jsval :=
  | VUndefined
  | VNull
  | VBool (b : bool)
  | VNum (n : Z)
  | VStr (s : jsstring)
  | VArr (elems : list jsval)
  | VObj (fields : list (jsstring * jsval)).

(** A thrown value: an [Error] whose [message] property is [message]
    ([VUndefined] when the thrown value has none). *)
Record exn := Exn { message : jsval }.

Inductive result (A : Type) :=
  | Ok (a : A)
  | Throw (e : exn).
Arguments Ok {A} a.
Arguments Throw {A} e.

Global Instance result_ret : MRet result := @Ok.

Global Instance result_bind : MBind result := λ A B k r,
  match r with
  | Ok a => k a
  | Throw e => Throw e
  end.

(** [xs.map(f)] for a callback that may throw: the first exception ends
    the traversal. *)
Fixpoint map_throwing {A B} (f : A → result B) (xs : list A) : result (list B) :=
  match xs with
  | [] => Ok []
  | x :: xs' =>
      y ← f x;
      ys ← map_throwing f xs';
      Ok (y :: ys)
  end.

Fixpoint assoc (name : jsstring) (fields : list (jsstring * jsval)) : jsval :=
  match fields with
  | [] => VUndefined
  | (k, v) :: rest => if decide (k = name) then v else assoc name rest
  end.

(** V8's message for a property read on [null] or [undefined]. *)
Definition null_read (v : jsval) (name : jsstring) : exn :=
  Exn (VStr (lit "Cannot read properties of " ++
             (match v with VNull => lit "null" | _ => lit "undefined" end) ++
             lit " (reading '" ++ name ++ lit "')")).

(** [v.name] for the property names the code reads ([messages], [role],
    [content], [text]): none of them is inherited from a prototype, so a
    primitive or an array answers [undefined], and [null] and
    [undefined] throw a TypeError. *)
Definition get (v : jsval) (name : jsstring) : result jsval :=
  match v with
  | VUndefined | VNull => Throw (null_read v name)
  | VObj fields => Ok (assoc name fields)
  | _ => Ok VUndefined
  end.

(** [v?.name] *)
Definition get_opt (v : jsval) (name : jsstring) : jsval :=
  match v with
  | VObj fields => assoc name fields
  | _ => VUndefined
  end.

(** [a ?? b] *)
Definition nullish (a b : jsval) : jsval :=
  match a with
  | VUndefined | VNull => b
  | _ => a
  end.

(** [v.toString()] on a value that is neither [null] nor [undefined];
    an array joins its elements with commas, rendering [null] and
    [undefined] elements as the empty string. *)
Fixpoint toString (v : jsval) : jsstring :=
  match v with
  | VUndefined => lit "undefined"
  | VNull => lit "null"
  | VBool true => lit "true"
  | VBool false => lit "false"
  | VNum n => js_String n
  | VStr s => s
  | VArr elems =>
      (fix join (l : list jsval) : jsstring :=
         match l with
         | [] => []
         | [x] => match x with VUndefined | VNull => [] | _ => toString x end
         | x :: rest =>
             match x with VUndefined | VNull => [] | _ => toString x end
               ++ lit "," ++ join rest
         end) elems
  | VObj _ => lit "[object Object]"
  end.

(** ** src/app/api/chat/route.ts: the rate limiter *)

(** A value of the [hits] map. *)
Record entry := { count : Z; resetAt : Z }.

(** [{ ok: true }] and [{ ok: false, retryAfterMs }]. *)
Record verdict := { ok : bool; retryAfterMs : option Z }.

(** [rateLimit(key, limit, windowMs)], with the [hits] map threaded
    through and [now] the value [Date.now()] returns. [cur.count += 1]
    mutates the object the map holds, which is the only reference to
    it: the map is updated at [key]. *)
Definition rateLimit (key : jsstring) (limit windowMs : Z) (now : Z)
    (hits : gmap jsstring entry) : gmap jsstring entry * verdict :=
  match hits !! key with
  | Some cur =>
      if decide (now > resetAt cur) then
        (<[key := {| count := 1; resetAt := now + windowMs |}]> hits,
         {| ok := true; retryAfterMs := None |})
      else if decide (count cur >= limit) then
        (hits, {| ok := false; retryAfterMs := Some (resetAt cur - now) |})
      else
        (<[key := {| count := count cur + 1; resetAt := resetAt cur |}]> hits,
         {| ok := true; retryAfterMs := None |})
  | None =>
      (<[key := {| count := 1; resetAt := now + windowMs |}]> hits,
       {| ok := true; retryAfterMs := None |})
  end.

(** ** clampMessages (the same function in both versions of the route) *)

(** What [clampMessages] builds: [role] is whatever the body carried,
    [content] is a string. *)
Record ChatMessage := { role : jsval; content : jsstring }.

Definition MAX_MESSAGES : Z := 20.
Definition MAX_CHARS_PER_MSG : Z := 4000.

(** [(m.content ?? "").toString()] *)
Definition content_text (c : jsval) : jsstring :=
  toString (nullish c (VStr [])).

(** The callback of [.map]: reads [m.role], then [m.content]. *)
Definition clamp_one (m : jsval) : result ChatMessage :=
  r ← get m (lit "role");
  c ← get m (lit "content");
  Ok {| role := r;
        content := js_slice 0 (Some MAX_CHARS_PER_MSG) (content_text c) |}.

(** The predicate of [.filter]: [m.content.trim().length > 0]. *)
Definition usable (m : ChatMessage) : Prop :=
  (0 < length (trim (content m)))%nat.

Global Instance usable_dec m : Decision (usable m) :=
  decide (0 < length (trim (content m)))%nat.

Definition clampMessages (messages : list jsval) : result (list ChatMessage) :=
  trimmed ← map_throwing clamp_one (js_slice (- MAX_MESSAGES) None messages);
  Ok (filter usable trimmed).

(** [clampMessages] after its slice: the map and the filter, on a
    given window. *)
Definition clamp_window (window : list jsval) : result (list ChatMessage) :=
  trimmed ← map_throwing clamp_one window;
  Ok (filter usable trimmed).

(** ** The provider call *)

Record Content := { provider_role : jsstring; parts : list jsstring }.

Record GenerationConfig := { maxOutputTokens : Z; temperature : float }.

(** The argument of [ai.models.generateContent]. *)
Record GenerateContentParameters := {
  model : jsstring;
  contents : list Content;
  config : GenerationConfig;
  systemInstruction : option jsstring
}.

(** [m.role === "assistant" ? "model" : "user"], with [parts: [{ text:
    m.content }]]. *)
Definition to_content (m : ChatMessage) : Content :=
  {| provider_role :=
       match role m with
       | VStr s => if decide (s = lit "assistant") then lit "model" else lit "user"
       | _ => lit "user"
       end;
     parts := [content m] |}.

(** ** Requests and responses *)

(** The parts of a request the handler reads: two headers, and what
    [await req.json()] gives. *)
Record Request := {
  x_forwarded_for : option jsstring;
  x_real_ip : option jsstring;
  json : result jsval
}.

(** [body] is the object given to [JSON.stringify]. A [Response] built
    without a status has status 200. *)
Record Response := {
  status : Z;
  headers : list (jsstring * jsstring);
  body : jsval
}.

Definition json_header : jsstring * jsstring :=
  (lit "content-type", lit "application/json").

Definition error_response (code : Z) (extra : list (jsstring * jsstring))
    (msg : jsstring) : Response :=
  {| status := code;
     headers := json_header :: extra;
     body := VObj [(lit "error", VStr msg)] |}.

Definition text_response (text : jsstring) : Response :=
  {| status := 200;
     headers := [json_header];
     body := VObj [(lit "text", VStr text)] |}.

(** [s.split(",")[0]]: the part before the first comma. *)
Fixpoint before_comma (s : jsstring) : jsstring :=
  match s with
  | [] => []
  | c :: s' => if decide (c = 44%N) then [] else c :: before_comma s'
  end.

(** [req.headers.get("x-forwarded-for")?.split(",")[0]?.trim() ??
    req.headers.get("x-real-ip") ?? "unknown"] *)
Definition client_ip (req : Request) : jsstring :=
  match x_forwarded_for req with
  | Some v => trim (before_comma v)
  | None =>
      match x_real_ip req with
      | Some v => v
      | None => lit "unknown"
      end
  end.

(** [Math.ceil(ms / 1000)] for an integral [ms]. *)
Definition ceil_seconds (ms : Z) : Z := - ((- ms) / 1000).

(** What the provider does with a request: it throws, or answers with
    a [text] that may be [undefined]. *)
Abbreviation provider := (GenerateContentParameters → result (option jsstring)).

(** The object the rate-limited route gives to [generateContent]:
    [contents] is [messages.map(...)]. *)
Definition generation_request (messages : list ChatMessage) : GenerateContentParameters :=
  {| model := lit "gemini-3-flash-preview";
     contents := to_content <$> messages;
     config := {| maxOutputTokens := 512; temperature := 0.7%float |};
     systemInstruction :=
       Some (lit "You are a helpful assistant. Be concise and accurate.") |}.

(** The body of the [try] block of the rate-limited route. *)
Definition handle (generateContent : provider) (req : Request) : result Response :=
  body ← json req;
  msgs ← get body (lit "messages");
  match msgs with
  | VArr elems =>
      messages ← clampMessages elems;
      if decide (length messages = 0%nat) then
        Ok (error_response 400 [] (lit "No usable messages"))
      else
        response ← generateContent (generation_request messages);
        Ok (text_response (default [] response))
  | _ => Ok (error_response 400 [] (lit "Missing messages[]"))
  end.

(** [POST(req)] of the rate-limited route. *)
Definition POST (generateContent : provider) (now : Z) (req : Request)
    (hits : gmap jsstring entry) : gmap jsstring entry * Response :=
  let ip := client_ip req in
  let '(hits', rl) := rateLimit ip 30 60000 now hits in
  if negb (ok rl) then
    (hits',
     error_response 429
       [(lit "retry-after", js_String (ceil_seconds (default 0 (retryAfterMs rl))))]
       (lit "Rate limit exceeded"))
  else
    (hits',
     match handle generateContent req with
     | Ok r => r
     | Throw _ => error_response 500 [] (lit "Server error")
     end).

(** ** Sequences of calls *)

(** One call of [rateLimit]: the key, the window length, and the
    clock at the call. *)
Record hit := { hit_key : jsstring; hit_window : Z; hit_now : Z }.

(** The [hits] map after a sequence of [rateLimit(key, limit,
    windowMs)] calls with one [limit], oldest first. *)
Fixpoint rateLimit_run (limit : Z) (calls : list hit)
    (hits : gmap jsstring entry) : gmap jsstring entry :=
  match calls with
  | [] => hits
  | c :: rest =>
      rateLimit_run limit rest
        (rateLimit (hit_key c) limit (hit_window c) (hit_now c) hits).1
  end.

(** One request as the endpoint sees it: the clock when it arrives,
    the request, and how the provider would answer. *)
Record call := { clock : Z; request : Request; answer : provider }.

Definition serve_one (c : call) (hits : gmap jsstring entry)
    : gmap jsstring entry * Response :=
  POST (answer c) (clock c) (request c) hits.

(** The [hits] map after the endpoint served [calls], oldest first. *)
Fixpoint serve (calls : list call) (hits : gmap jsstring entry)
    : gmap jsstring entry :=
  match calls with
  | [] => hits
  | c :: rest => serve rest (serve_one c hits).1
  end.

(** Every entry of the map counts between 1 and [limit]. *)
Definition within_limit (limit : Z) (hits : gmap jsstring entry) : Prop :=
  ∀ key cur, hits !! key = Some cur → 1 ≤ count cur ≤ limit.

(** The first header of a response with a given name. *)
Definition header (name : jsstring) (r : Response) : option jsstring :=
  match filter (λ h, h.1 = name) (headers r) with
  | h :: _ => Some h.2
  | [] => None
  end.

(** The response carries a [retry-after] header that is the decimal
    rendering of a positive integer. *)
Definition retry_after_positive (r : Response) : Prop :=
  ∃ secs, 0 < secs ∧ header (lit "retry-after") r = Some (js_String secs).

(** A message the filter will not keep: its content can be read, and
    the first 4000 code units of its text are all white space. *)
Definition blank_message (m : jsval) : Prop :=
  ∃ r c, get m (lit "role") = Ok r ∧ get m (lit "content") = Ok c ∧
         Forall (λ u, is_js_space u = true) (take 4000 (content_text c)).

(** ** The route without a rate limiter

    The file holds a second version of the route: no rate limiter, the
    provider client built per request by [getAiClient], no system
    instruction, and a [catch] that answers with the exception's
    message. The specification takes the rate-limited version above as
    the endpoint; this one is kept for comparison. *)
Module Unlimited.

Fixpoint starts_with (p s : jsstring) : bool :=
  match p, s with
  | [], _ => true
  | a :: p', b :: s' => bool_decide (a = b) && starts_with p' s'
  | _ :: _, [] => false
  end.

(** [s.includes(needle)] *)
Fixpoint includes (s needle : jsstring) : bool :=
  starts_with needle s ||
  match s with
  | [] => false
  | _ :: s' => includes s' needle
  end.

(** [getAiClient()], given [process.env.GEMINI_API_KEY]; the client
    is identified by its key. [!key] holds for [undefined] and for
    the empty string. *)
Definition getAiClient (env_key : option jsstring) : result jsstring :=
  match env_key with
  | Some key =>
      if decide (key = []) then
        Throw (Exn (VStr (lit "Missing GEMINI_API_KEY environment variable.")))
      else Ok key
  | None =>
      Throw (Exn (VStr (lit "Missing GEMINI_API_KEY environment variable.")))
  end.

Definition handle (env_key : option jsstring)
    (generateContent : jsstring → provider) (req : Request) : result Response :=
  body ← json req;
  msgs ← get body (lit "messages");
  match msgs with
  | VArr elems =>
      messages ← clampMessages elems;
      if decide (length messages = 0%nat) then
        Ok (error_response 400 [] (lit "No usable messages"))
      else
        ai ← getAiClient env_key;
        response ← generateContent ai
          {| model := lit "gemini-3-flash-preview";
             contents := to_content <$> messages;
             config := {| maxOutputTokens := 512; temperature := 0.7%float |};
             systemInstruction := None |};
        Ok (text_response (default [] response))
  | _ => Ok (error_response 400 [] (lit "Missing messages[]"))
  end.

Definition POST (env_key : option jsstring)
    (generateContent : jsstring → provider) (req : Request) : Response :=
  match handle env_key generateContent req with
  | Ok r => r
  | Throw err =>
      let msg :=
        match message err with
        | VStr s => s
        | _ => lit "Server error"
        end in
      let status := if includes msg (lit "GEMINI_API_KEY") then 500 else 500 in
      error_response status [] msg
  end.

End Unlimited.

(** ** src/app/page.tsx: the [send] action *)
Module Page.

Inductive Role := user | assistant.

Record Msg := { role : Role; content : jsstring }.

(** The three [useState] cells of the page. *)
Record State := { messages : list Msg; input : jsstring; loading : bool }.

(** What [await fetch(...)] and the reads of the response give:
    [fetch] throws, or a response arrives with its status, and with
    what [res.text()] and [res.json()] give. *)
Inductive fetched :=
  | Rejected (e : exn)
  | Responded (status : Z) (text : result jsstring) (json : result jsval).

(** [send] up to the [fetch]: [None] is the early [return]; otherwise
    the new state and the conversation put in the request body. *)
Definition send_request (st : State) : option (State * list Msg) :=
  let text := trim (input st) in
  if bool_decide (text = []) || loading st then None
  else
    let next := messages st ++ [{| role := user; content := text |}] in
    Some ({| messages := next; input := []; loading := true |}, next).

(** The [try] block after the [fetch]: the assistant message, or the
    exception that reaches the [catch]. *)
Definition reply (o : fetched) : result Msg :=
  match o with
  | Rejected e => Throw e
  | Responded status text json =>
      if negb ((200 <=? status) && (status <=? 299)) then
        let errText := match text with Ok t => t | Throw _ => [] end in
        Throw (Exn (VStr
          (if bool_decide (errText = [])
           then lit "Request failed (" ++ js_String status ++ lit ")"
           else errText)))
      else
        data ← json;
        let textResponse :=
          match get_opt data (lit "text") with
          | VStr s => s
          | _ => []
          end in
        Ok {| role := assistant;
              content :=
                if bool_decide (trim textResponse = [])
                then lit "(no response)"
                else trim textResponse |}
  end.

(** The message of the [catch] block; the dash is U+2014. *)
Definition failure_notice (e : exn) : Msg :=
  {| role := assistant;
     content :=
       lit "Sorry " ++ [8212%N] ++ lit " something went wrong." ++ [10%N] ++
       toString (nullish (message e) (VStr [])) |}.

(** [send] from the arrival of the outcome on: one functional update
    of [messages], and [setLoading(false)] in the [finally]. *)
Definition send_settle (o : fetched) (st : State) : State :=
  let m :=
    match reply o with
    | Ok assistantMsg => assistantMsg
    | Throw e => failure_notice e
    end in
  {| messages := messages st ++ [m]; input := input st; loading := false |}.

(** The [useState] initial values: the greeting (a waving hand, U+1F44B,
    and a right quote, U+2019), an empty input, nothing in flight. *)
Definition initial : State :=
  {| messages :=
       [{| role := assistant;
           content :=
             lit "Hey! " ++ [55357%N; 56395%N] ++ lit " I" ++ [8217%N] ++
             lit "m your Gemini chatbot. What are we building today?" |}];
     input := [];
     loading := false |}.

(** [canSend]: [input.trim().length > 0 && !loading]. *)
Definition canSend (st : State) : bool :=
  bool_decide (0 < length (trim (input st)))%nat && negb (loading st).

(** The [onChange] of the input: [setInput(e.target.value)]. *)
Definition setInput (value : jsstring) (st : State) : State :=
  {| messages := messages st; input := value; loading := loading st |}.

(** [clearChat()]; the sparkles are U+2728. *)
Definition clearChat (st : State) : State :=
  {| messages :=
       [{| role := assistant;
           content := lit "Cleared " ++ [10024%N] ++ lit " What should we do next?" |}];
     input := input st;
     loading := loading st |}.

End Page.

(** ** The page and the endpoint together *)

Definition role_name (r : Page.Role) : jsstring :=
  match r with
  | Page.user => lit "user"
  | Page.assistant => lit "assistant"
  end.

(** What [req.json()] gives for the body [JSON.stringify({ messages:
    next })] of the page: strings survive the JSON round trip. *)
Definition wire_message (m : Page.Msg) : jsval :=
  VObj [(lit "role", VStr (role_name (Page.role m)));
        (lit "content", VStr (Page.content m))].

Definition wire_body (next : list Page.Msg) : jsval :=
  VObj [(lit "messages", VArr (wire_message <$> next))].

(** The request of the page as it reaches the endpoint; the address
    headers are whatever the proxies in between set. *)
Definition page_request (forwarded real_ip : option jsstring)
    (next : list Page.Msg) : Request :=
  {| x_forwarded_for := forwarded; x_real_ip := real_ip; json := Ok (wire_body next) |}.

(** A response of the endpoint as the page reads it: [raw] is the text
    of its body. *)
Definition received (r : Response) (raw : jsstring) : Page.fetched :=
  Page.Responded (status r) (Ok raw) (Ok (body r)).

(** A clamped message as an object again. *)
Definition as_object (m : ChatMessage) : jsval :=
  VObj [(lit "role", role m); (lit "content", VStr (content m))].

(** The object the route without a rate limiter gives to the provider:
    the same as [generation_request], without a system instruction. *)
Definition plain_request (messages : list ChatMessage) : GenerateContentParameters :=
  {| model := lit "gemini-3-flash-preview";
     contents := to_content <$> messages;
     config := {| maxOutputTokens := 512; temperature := 0.7%float |};
     systemInstruction := None |}.

(** The validation both routes start their [try] block with: the
    exception thrown, the 400 answer, or the clamped messages to
    forward. *)
Definition validated (req : Request) : result (Response + list ChatMessage) :=
  body ← json req;
  msgs ← get body (lit "messages");
  match msgs with
  | VArr elems =>
      messages ← clampMessages elems;
      if decide (length messages = 0%nat) then
        Ok (inl (error_response 400 [] (lit "No usable messages")))
      else Ok (inr messages)
  | _ => Ok (inl (error_response 400 [] (lit "Missing messages[]")))
  end.

(** What the page lets happen: a submit that [send] does not ignore;
    the end of the request in flight; a clear, whose button is disabled
    while a request is in flight; typing. *)
Inductive page_step : Page.State → Page.State → Prop :=
  | step_submit st st' next :
      Page.send_request st = Some (st', next) → page_step st st'
  | step_settle st o :
      Page.loading st = true → page_step st (Page.send_settle o st)
  | step_clear st :
      Page.loading st = false → page_step st (Page.clearChat st)
  | step_typing st value :
      page_step st (Page.setInput value st).

(** The role at each position of a conversation that starts with the
    assistant and alternates. *)
Definition role_at (i : nat) : Page.Role :=
  if Nat.even i then Page.assistant else Page.user.

(** The conversation is not empty and alternates from the assistant on,
    and a request is in flight exactly when its last message is the
    user's, that is when its length is even. *)
Definition page_ok (st : Page.State) : Prop :=
  Page.messages st ≠ [] ∧
  (∀ i m, Page.messages st !! i = Some m → Page.role m = role_at i) ∧
  Page.loading st = Nat.even (length (Page.messages st)).

(** ** Predicates of the properties *)


Definition blank (s : jsstring) : Prop := Forall (λ u, is_js_space u = true) s.

(** What the provider can be given: the role is [user] or [model], and
    there is one text, of 1 to 4000 code units, not all white space. *)
Definition forwardable (c : Content) : Prop :=
  (provider_role c = lit "user" ∨ provider_role c = lit "model") ∧
  ∃ text, parts c = [text] ∧ (0 < length text ≤ 4000)%nat ∧ ¬ blank text.

(** No entry resets later than one window after clock [T]. *)
Definition resets_by (T : Z) (hits : gmap jsstring entry) : Prop :=
  ∀ key cur, hits !! key = Some cur → resetAt cur ≤ T + 60000.

(** ** Sample data *)

Definition message_of (r : string) (c : jsstring) : jsval :=
  VObj [(lit "role", VStr (lit r)); (lit "content", VStr c)].

(** Twenty-one user messages, numbered 0 to 20. *)
Definition numbered_conversation : list jsval :=
  (λ i : nat, message_of "user" (js_String (Z.of_nat i))) <$> seq 0 21.

(** A message of 4001 letters. *)
Definition long_message : jsval := message_of "user" (replicate 4001 97%N).

(** Messages without content: the property is missing, or [null]. *)
Definition no_content : jsval := VObj [(lit "role", VStr (lit "user"))].
Definition null_content : jsval :=
  VObj [(lit "role", VStr (lit "user")); (lit "content", VNull)].

(** A request without address headers (its key is ["unknown"]) and
    with an empty JSON object as body, arriving at clock [t]. *)
Definition bare_request : Request :=
  {| x_forwarded_for := None; x_real_ip := None; json := Ok (VObj []) |}.

Definition bare_call (t : Z) : call :=
  {| clock := t; request := bare_request; answer := λ _, Ok None |}.

(** The map after thirty bare requests at clock 0: the key ["unknown"]
    is at its limit until 60000. *)
Definition full_window : gmap jsstring entry :=
  serve (replicate 30 (bare_call 0)) ∅.

(** A provider that fails with a given message, and one that answers. *)
Definition failing_provider (msg : string) : provider :=
  λ _, Throw (Exn (VStr (lit msg))).

Definition echo_provider : provider := λ _, Ok (Some (lit "hi")).

(** A request with one user message, from address 10.0.0.1. *)
Definition hello_request : Request :=
  {| x_forwarded_for := Some (lit "10.0.0.1, 10.0.0.2");
     x_real_ip := None;
     json := Ok (VObj [(lit "messages", VArr [message_of "user" (lit "hello")])]) |}.

(** The page while a request is in flight, after the user asked one
    question. *)
Definition waiting_page : Page.State :=
  {| Page.messages := [{| Page.role := Page.user; Page.content := lit "question" |}];
     Page.input := [];
     Page.loading := true |}.

(** * Properties *)

(** ** The JavaScript operations on small inputs *)

Example toString_nested :
  toString (VArr [VNum 1; VNull; VArr [VStr (lit "a"); VBool true]]) = lit "1,,a,true".
Proof. reflexivity. Qed.

Example trim_example :
  trim (lit " hi there  ") = lit "hi there".
Proof. reflexivity. Qed.

Example slice_last_two : js_slice (-2) None [1; 2; 3] = [2; 3].
Proof. reflexivity. Qed.

Example client_ip_first_address : client_ip hello_request = lit "10.0.0.1".
Proof. reflexivity. Qed.

Example ceil_seconds_rounds_up :
  ceil_seconds 1 = 1 ∧ ceil_seconds 1000 = 1 ∧ ceil_seconds 1001 = 2 ∧
  ceil_seconds 0 = 0.
Proof. by vm_compute. Qed.

(** ** Slices and trimming *)

Section slices.
Context {A : Type}.
Implicit Types l : list A.

(** [l.slice(-n)] is the suffix of the last [n] elements. *)
Lemma js_slice_last (n : Z) l :
  0 < n → js_slice (- n) None l = drop (length l - Z.to_nat n)%nat l.
Proof.
  intros Hn. unfold js_slice, rel_index.
  destruct (Z.ltb_spec (- n) 0) as [_|?]; [|lia].
  replace (Z.to_nat (Z.max (Z.of_nat (length l) + - n) 0))
    with (length l - Z.to_nat n)%nat by lia.
  apply take_ge. rewrite length_drop. lia.
Qed.

(** [l.slice(0, n)] is the prefix of the first [n] elements. *)
Lemma js_slice_first (n : Z) l :
  0 ≤ n → js_slice 0 (Some n) l = take (Z.to_nat n) l.
Proof.
  intros Hn. unfold js_slice, rel_index. simpl.
  destruct (Z.ltb_spec n 0) as [?|_]; [lia|].
  rewrite (Z.min_l 0) by lia. rewrite drop_0, Z.sub_0_r.
  destruct (decide (n ≤ Z.of_nat (length l))) as [Hle|Hgt].
  - by rewrite Z.min_l by lia.
  - rewrite Z.min_r by lia. rewrite Nat2Z.id.
    rewrite !take_ge; [done|lia..].
Qed.

Lemma js_slice_short (n : Z) l :
  0 < n → (length l ≤ Z.to_nat n)%nat → js_slice (- n) None l = l.
Proof.
  intros Hn Hlen. rewrite js_slice_last by done.
  by replace (length l - Z.to_nat n)%nat with 0%nat by lia.
Qed.

End slices.

(** A string trims to the empty string exactly when every code unit of
    it is white space. *)
Lemma trim_start_nil (s : jsstring) :
  trim_start s = [] ↔ Forall (λ c, is_js_space c = true) s.
Proof.
  induction s as [|c s IH]; simpl.
  - split; [constructor|done].
  - destruct (is_js_space c) eqn:Hc.
    + rewrite IH. split; [by constructor|by inversion 1].
    + split; [done|]. inversion 1; congruence.
Qed.

Lemma trim_start_blank (s : jsstring) :
  Forall (λ c, is_js_space c = true) s → trim_start s = [].
Proof. apply trim_start_nil. Qed.

Lemma trim_start_head (s : jsstring) c t :
  trim_start s = c :: t → is_js_space c = false.
Proof.
  induction s as [|d s IH]; simpl; [done|].
  destruct (is_js_space d) eqn:Hd; [done|]. by intros [= <- <-].
Qed.

Lemma trim_nil (s : jsstring) :
  trim s = [] ↔ Forall (λ c, is_js_space c = true) s.
Proof.
  unfold trim, trim_end. split.
  - intros H. apply trim_start_nil.
    destruct (trim_start s) as [|c t] eqn:E; [done|].
    apply (f_equal reverse) in H. rewrite reverse_involutive in H.
    apply trim_start_nil in H. rewrite Forall_reverse in H.
    apply trim_start_head in E. inversion H; congruence.
  - intros H. apply trim_start_nil in H. by rewrite H.
Qed.

Lemma usable_iff (m : ChatMessage) :
  usable m ↔ ¬ Forall (λ c, is_js_space c = true) (content m).
Proof.
  unfold usable. rewrite <- trim_nil.
  destruct (trim (content m)); simpl; split; try lia; done.
Qed.

(** ** [map_throwing] *)

Lemma map_throwing_Ok {A B} (f : A → result B) xs ys :
  map_throwing f xs = Ok ys ↔ Forall2 (λ x y, f x = Ok y) xs ys.
Proof.
  revert ys. induction xs as [|x xs IH]; intros ys; simpl.
  - split.
    + intros [= <-]. constructor.
    + by inversion 1.
  - destruct (f x) as [y|e] eqn:Hx; simpl; [|split; [done|inversion 1; congruence]].
    destruct (map_throwing f xs) as [zs|e] eqn:Hxs; simpl.
    + split.
      * intros [= <-]. constructor; [done|]. by apply IH.
      * inversion 1 as [|? y' ? zs' Hy Hzs]; subst.
        apply IH in Hzs. congruence.
    + split; [done|]. inversion 1 as [|? y' ? zs' Hy Hzs]; subst.
      apply IH in Hzs. done.
Qed.

Lemma map_throwing_total {A B} (f : A → result B) xs :
  Forall (λ x, ∃ y, f x = Ok y) xs → ∃ ys, map_throwing f xs = Ok ys.
Proof.
  induction 1 as [|x xs [y Hy] _ [ys Hys]]; simpl.
  - by eexists.
  - rewrite Hy, Hys. by eexists.
Qed.

Lemma map_throwing_app {A B} (f : A → result B) xs1 xs2 :
  map_throwing f (xs1 ++ xs2) =
  (ys1 ← map_throwing f xs1; ys2 ← map_throwing f xs2; Ok (ys1 ++ ys2)).
Proof.
  induction xs1 as [|x xs1 IH]; simpl.
  - by destruct (map_throwing f xs2).
  - destruct (f x); simpl; [|done]. rewrite IH.
    destruct (map_throwing f xs1); simpl; [|done].
    by destruct (map_throwing f xs2).
Qed.

(** ** [clampMessages] *)

Lemma clampMessages_window (messages : list jsval) :
  clampMessages messages =
  clampMessages (js_slice (- MAX_MESSAGES) None messages).
Proof.
  unfold clampMessages. f_equal. unfold MAX_MESSAGES.
  rewrite (js_slice_short 20 (js_slice _ _ _)); [done|lia|].
  rewrite js_slice_last by lia. rewrite length_drop. lia.
Qed.

(** C3. A conversation of more than 20 messages is cut to its last 20
    messages, in their order, before anything else is done: the slice
    is the suffix of length 20, the older messages are the discarded
    prefix, and the result of [clampMessages] is the result of mapping
    and filtering that suffix alone. *)
Theorem clamp_keeps_last_20 (messages : list jsval) :
  (20 < length messages)%nat →
  let kept := js_slice (- MAX_MESSAGES) None messages in
  kept = drop (length messages - 20)%nat messages ∧
  length kept = 20%nat ∧
  messages = take (length messages - 20)%nat messages ++ kept ∧
  (∀ i, (i < 20)%nat → kept !! i = messages !! (length messages - 20 + i)%nat) ∧
  clampMessages messages =
    (trimmed ← map_throwing clamp_one kept; Ok (filter usable trimmed)) ∧
  clampMessages messages = clampMessages kept.
Proof.
  intros Hlen kept.
  assert (Hkept : kept = drop (length messages - 20)%nat messages).
  { unfold kept, MAX_MESSAGES. by rewrite js_slice_last by lia. }
  split_and!.
  - done.
  - rewrite Hkept, length_drop. lia.
  - by rewrite Hkept, take_drop.
  - intros i _. by rewrite Hkept, lookup_drop.
  - done.
  - apply clampMessages_window.
Qed.

Lemma clamp_keeps_last_20_witness :
  let kept := js_slice (- MAX_MESSAGES) None numbered_conversation in
  kept = drop 1 numbered_conversation ∧
  length kept = 20%nat ∧
  numbered_conversation = take 1 numbered_conversation ++ kept ∧
  (∀ i, (i < 20)%nat → kept !! i = numbered_conversation !! (1 + i)%nat) ∧
  clampMessages numbered_conversation =
    (trimmed ← map_throwing clamp_one kept; Ok (filter usable trimmed)) ∧
  clampMessages numbered_conversation = clampMessages kept.
Proof. apply (clamp_keeps_last_20 numbered_conversation). simpl. lia. Defined.

Lemma clamp_one_Ok (m : jsval) (m' : ChatMessage) :
  clamp_one m = Ok m' ↔
  ∃ r c, get m (lit "role") = Ok r ∧ get m (lit "content") = Ok c ∧
         m' = {| role := r; content := take 4000 (content_text c) |}.
Proof.
  unfold clamp_one, MAX_CHARS_PER_MSG.
  destruct (get m (lit "role")) as [r|e]; simpl.
  - destruct (get m (lit "content")) as [c|e]; simpl.
    + rewrite js_slice_first by lia. split.
      * intros [= <-]. by exists r, c.
      * intros (? & ? & [= <-] & [= <-] & ->). done.
    + split; [done|]. by intros (? & ? & _ & ? & _).
  - split; [done|]. by intros (? & ? & ? & _).
Qed.

(** C4. Every message [clampMessages] returns comes from a message of
    the retained window, with the same role and with the first 4000
    code units of its content: a content longer than 4000 comes out
    with length exactly 4000, a content of at most 4000 comes out
    unchanged. *)
Theorem clamp_truncates_content (messages : list jsval)
    (out : list ChatMessage) (m' : ChatMessage) :
  clampMessages messages = Ok out →
  m' ∈ out →
  ∃ m r c,
    m ∈ js_slice (- MAX_MESSAGES) None messages ∧
    get m (lit "role") = Ok r ∧ get m (lit "content") = Ok c ∧
    role m' = r ∧
    content m' = take 4000 (content_text c) ∧
    ((4000 < length (content_text c))%nat → length (content m') = 4000%nat) ∧
    ((length (content_text c) ≤ 4000)%nat → content m' = content_text c) ∧
    (∀ s, c = VStr s → content_text c = s).
Proof.
  unfold clampMessages. intros Hout Hin.
  destruct (map_throwing clamp_one _) as [trimmed|e] eqn:Hmap; [|done].
  simpl in Hout. injection Hout as <-.
  apply list_elem_of_filter in Hin as [_ Hin].
  apply map_throwing_Ok in Hmap.
  apply list_elem_of_lookup in Hin as [i Hi].
  destruct (Forall2_lookup_r _ _ _ _ _ Hmap Hi) as (m & Hm & Hone).
  apply clamp_one_Ok in Hone as (r & c & Hr & Hc & ->).
  exists m, r, c. simpl. split_and!; try done.
  - apply list_elem_of_lookup. by exists i.
  - intros Hlong. rewrite length_take. lia.
  - intros Hshort. by apply take_ge.
  - by intros s ->.
Qed.

Lemma clamp_truncates_content_witness :
  let m' := {| role := VStr (lit "user"); content := replicate 4000 97%N |} in
  ∃ m r c,
    m ∈ js_slice (- MAX_MESSAGES) None [long_message] ∧
    get m (lit "role") = Ok r ∧ get m (lit "content") = Ok c ∧
    role m' = r ∧
    content m' = take 4000 (content_text c) ∧
    ((4000 < length (content_text c))%nat → length (content m') = 4000%nat) ∧
    ((length (content_text c) ≤ 4000)%nat → content m' = content_text c) ∧
    (∀ s, c = VStr s → content_text c = s).
Proof.
  apply (clamp_truncates_content [long_message]
           [{| role := VStr (lit "user"); content := replicate 4000 97%N |}]).
  - vm_compute. reflexivity.
  - apply list_elem_of_here.
Defined.

Lemma clamp_window_app (w1 w2 : list jsval) :
  clamp_window (w1 ++ w2) =
  (o1 ← clamp_window w1; o2 ← clamp_window w2; Ok (o1 ++ o2)).
Proof.
  unfold clamp_window. rewrite map_throwing_app.
  destruct (map_throwing clamp_one w1) as [t1|]; simpl; [|done].
  destruct (map_throwing clamp_one w2) as [t2|]; simpl; [|done].
  by rewrite filter_app.
Qed.

Lemma clampMessages_short (messages : list jsval) :
  (length messages ≤ 20)%nat → clampMessages messages = clamp_window messages.
Proof.
  intros Hlen. unfold clampMessages, clamp_window, MAX_MESSAGES.
  by rewrite js_slice_short by (done || lia).
Qed.

Lemma js_slice_last_length {A} (n : Z) (l : list A) :
  0 < n → (length (js_slice (- n) None l) ≤ Z.to_nat n)%nat.
Proof. intros Hn. rewrite js_slice_last by done. rewrite length_drop. lia. Qed.

(** [clampMessages] throws only on an element that is [null] (or
    [undefined]), where [m.role] cannot be read. *)
Lemma clamp_one_total (m : jsval) :
  m ≠ VNull → m ≠ VUndefined → ∃ m', clamp_one m = Ok m'.
Proof.
  intros Hnull Hundef. unfold clamp_one.
  destruct m; try done; simpl; by eexists.
Qed.

Lemma clampMessages_total (messages : list jsval) :
  Forall (λ m, m ≠ VNull ∧ m ≠ VUndefined) messages →
  ∃ out, clampMessages messages = Ok out.
Proof.
  intros Hall. unfold clampMessages.
  destruct (map_throwing_total clamp_one (js_slice (- MAX_MESSAGES) None messages))
    as [trimmed Ht].
  - unfold MAX_MESSAGES. rewrite js_slice_last by lia.
    apply Forall_drop. eapply Forall_impl; [exact Hall|].
    intros m [? ?]. by apply clamp_one_total.
  - rewrite Ht. by eexists.
Qed.

(** C10. A message whose [content] reads as [undefined] or [null] does
    not make [clampMessages] throw: its content is coerced to the empty
    string, the truncated message has empty content, the filter does
    not keep it, and the result is the result for the window without
    that message; a conversation of such messages clamps to the empty
    list. *)
Theorem clamp_drops_absent_content (m c : jsval) :
  get m (lit "content") = Ok c →
  c = VUndefined ∨ c = VNull →
  content_text c = [] ∧
  (∃ r, clamp_one m = Ok {| role := r; content := [] |} ∧
        ¬ usable {| role := r; content := [] |}) ∧
  clampMessages [m] = Ok [] ∧
  (∀ messages before after,
     js_slice (- MAX_MESSAGES) None messages = before ++ m :: after →
     clampMessages messages = clampMessages (before ++ after)).
Proof.
  intros Hget Hc.
  assert (Htext : content_text c = []) by (by destruct Hc as [-> | ->]).
  assert (Hone : ∃ r, clamp_one m = Ok {| role := r; content := [] |}).
  { unfold clamp_one. destruct m; try done; simpl in *;
      injection Hget as <-; rewrite Htext; by eexists. }
  assert (Hwin : clamp_window [m] = Ok []).
  { destruct Hone as [r Hr]. unfold clamp_window. simpl. rewrite Hr. simpl.
    rewrite filter_cons_False; [done|]. unfold usable. simpl. lia. }
  split_and!.
  - done.
  - destruct Hone as [r Hr]. exists r. split; [done|]. unfold usable. simpl. lia.
  - by rewrite clampMessages_short by (simpl; lia).
  - intros messages before after Hslice.
    assert (Hlen : (length (before ++ m :: after) ≤ 20)%nat).
    { rewrite <- Hslice. by apply (js_slice_last_length 20). }
    rewrite length_app in Hlen. simpl in Hlen.
    rewrite clampMessages_window, Hslice.
    rewrite !clampMessages_short by (rewrite ?length_app; simpl; lia).
    rewrite (clamp_window_app before (m :: after)).
    change (m :: after) with ([m] ++ after).
    rewrite (clamp_window_app [m] after), Hwin, (clamp_window_app before after).
    destruct (clamp_window before); simpl; [|done].
    by destruct (clamp_window after).
Qed.

Lemma clamp_drops_absent_content_witness :
  content_text VUndefined = [] ∧
  (∃ r, clamp_one no_content = Ok {| role := r; content := [] |} ∧
        ¬ usable {| role := r; content := [] |}) ∧
  clampMessages [no_content] = Ok [] ∧
  (∀ messages before after,
     js_slice (- MAX_MESSAGES) None messages = before ++ no_content :: after →
     clampMessages messages = clampMessages (before ++ after)).
Proof.
  apply (clamp_drops_absent_content no_content VUndefined).
  - reflexivity.
  - left. reflexivity.
Defined.

Example clamp_null_content_between :
  clampMessages [message_of "user" (lit "a"); null_content; message_of "assistant" (lit "b")]
  = Ok [{| role := VStr (lit "user"); content := lit "a" |};
        {| role := VStr (lit "assistant"); content := lit "b" |}].
Proof. vm_compute. reflexivity. Qed.

Example clamp_null_element_throws :
  clampMessages [VNull] = Throw (null_read VNull (lit "role")).
Proof. reflexivity. Qed.

(** ** The rate limiter *)

Section rate_limiter.
Implicit Types hits : gmap jsstring entry.

Lemma rateLimit_new_window key limit windowMs now hits :
  (hits !! key = None ∨ ∃ cur, hits !! key = Some cur ∧ now > resetAt cur) →
  rateLimit key limit windowMs now hits =
    (<[key := {| count := 1; resetAt := now + windowMs |}]> hits,
     {| ok := true; retryAfterMs := None |}).
Proof.
  unfold rateLimit. intros [-> | (cur & -> & Hnow)]; [done|].
  by rewrite decide_True.
Qed.

Lemma rateLimit_counted key limit windowMs now hits cur :
  hits !! key = Some cur → now ≤ resetAt cur → count cur < limit →
  rateLimit key limit windowMs now hits =
    (<[key := {| count := count cur + 1; resetAt := resetAt cur |}]> hits,
     {| ok := true; retryAfterMs := None |}).
Proof.
  unfold rateLimit. intros -> Hnow Hcount.
  rewrite decide_False by lia. by rewrite decide_False by lia.
Qed.

Lemma rateLimit_rejected key limit windowMs now hits cur :
  hits !! key = Some cur → now ≤ resetAt cur → count cur >= limit →
  rateLimit key limit windowMs now hits =
    (hits, {| ok := false; retryAfterMs := Some (resetAt cur - now) |}).
Proof.
  unfold rateLimit. intros -> Hnow Hcount.
  rewrite decide_False by lia. by rewrite decide_True.
Qed.

(** A call leaves the entries of the other keys alone. *)
Lemma rateLimit_other key limit windowMs now hits key' :
  key ≠ key' →
  (rateLimit key limit windowMs now hits).1 !! key' = hits !! key'.
Proof.
  intros Hne. unfold rateLimit.
  destruct (hits !! key) as [cur|]; repeat case_decide; simpl;
    by rewrite ?lookup_insert_ne.
Qed.

Lemma rateLimit_within_limit key limit windowMs now hits :
  1 ≤ limit → within_limit limit hits →
  within_limit limit (rateLimit key limit windowMs now hits).1.
Proof.
  intros Hlimit Hinv key' cur'.
  destruct (decide (key = key')) as [<-|Hne];
    [|rewrite rateLimit_other by done; apply Hinv].
  unfold rateLimit. destruct (hits !! key) as [cur|] eqn:Hcur.
  - specialize (Hinv _ _ Hcur). repeat case_decide; simpl.
    + rewrite lookup_insert_eq. intros [= <-]. simpl. lia.
    + rewrite Hcur. intros [= <-]. lia.
    + rewrite lookup_insert_eq. intros [= <-]. simpl. lia.
  - simpl. rewrite lookup_insert_eq. intros [= <-]. simpl. lia.
Qed.

Lemma rateLimit_run_within_limit limit calls hits :
  1 ≤ limit → within_limit limit hits →
  within_limit limit (rateLimit_run limit calls hits).
Proof.
  intros Hlimit. revert hits.
  induction calls as [|c calls IH]; intros hits Hinv; simpl; [done|].
  apply IH. by apply rateLimit_within_limit.
Qed.

Lemma within_limit_empty limit : within_limit limit ∅.
Proof. intros key cur. by rewrite lookup_empty. Qed.

End rate_limiter.

(** C6. When the entry of a key is exhausted and the clock has passed
    its reset time, the next call for that key is accepted and puts a
    fresh entry in place of the old one: count 1, reset time one window
    after the call. The entries of the other keys stay as they are. *)
Theorem rate_limit_recovers (key : jsstring) (limit windowMs now : Z)
    (hits : gmap jsstring entry) (cur : entry) :
  hits !! key = Some cur →
  count cur >= limit →
  now > resetAt cur →
  rateLimit key limit windowMs now hits =
    (<[key := {| count := 1; resetAt := now + windowMs |}]> hits,
     {| ok := true; retryAfterMs := None |}) ∧
  (rateLimit key limit windowMs now hits).1 !! key =
    Some {| count := 1; resetAt := now + windowMs |} ∧
  (∀ key', key ≠ key' →
     (rateLimit key limit windowMs now hits).1 !! key' = hits !! key').
Proof.
  intros Hcur _ Hnow.
  assert (rateLimit key limit windowMs now hits =
    (<[key := {| count := 1; resetAt := now + windowMs |}]> hits,
     {| ok := true; retryAfterMs := None |})) as Heq.
  { apply rateLimit_new_window. right. by exists cur. }
  split_and!; [done| |].
  - rewrite Heq. simpl. apply lookup_insert_eq.
  - intros key' Hne. by apply rateLimit_other.
Qed.

Lemma rate_limit_recovers_witness :
  let key := lit "10.0.0.1" in
  let hits : gmap jsstring entry := {[ key := {| count := 30; resetAt := 60000 |} ]} in
  rateLimit key 30 60000 60001 hits =
    (<[key := {| count := 1; resetAt := 60001 + 60000 |}]> hits,
     {| ok := true; retryAfterMs := None |}) ∧
  (rateLimit key 30 60000 60001 hits).1 !! key =
    Some {| count := 1; resetAt := 60001 + 60000 |} ∧
  (∀ key', key ≠ key' →
     (rateLimit key 30 60000 60001 hits).1 !! key' = hits !! key').
Proof.
  intros key hits.
  apply (rate_limit_recovers key 30 60000 60001 hits {| count := 30; resetAt := 60000 |}).
  - apply lookup_singleton_eq.
  - simpl. lia.
  - simpl. lia.
Defined.

(** C9. After any sequence of [rateLimit] calls with limit 30 on the
    initially empty map, every stored count lies between 1 and 30. The
    two branches that bound it: a call inside the window that finds the
    count at 30 is rejected and leaves the map as it is, and a call that
    opens a window stores count 1. *)
Theorem count_never_exceeds_limit (calls : list hit) (key : jsstring) :
  let hits := rateLimit_run 30 calls ∅ in
  (∀ cur, hits !! key = Some cur → 1 ≤ count cur ≤ 30) ∧
  (∀ windowMs now cur,
     hits !! key = Some cur → now ≤ resetAt cur → count cur = 30 →
     rateLimit key 30 windowMs now hits =
       (hits, {| ok := false; retryAfterMs := Some (resetAt cur - now) |})) ∧
  (∀ windowMs now,
     (hits !! key = None ∨ ∃ cur, hits !! key = Some cur ∧ now > resetAt cur) →
     (rateLimit key 30 windowMs now hits).1 !! key =
       Some {| count := 1; resetAt := now + windowMs |}).
Proof.
  intros hits. split_and!.
  - intros cur Hcur.
    by apply (rateLimit_run_within_limit 30 calls ∅
                ltac:(lia) (within_limit_empty 30) key cur).
  - intros windowMs now cur Hcur Hnow Hcount.
    apply rateLimit_rejected; [done|done|lia].
  - intros windowMs now Hnew. rewrite rateLimit_new_window by done.
    simpl. apply lookup_insert_eq.
Qed.

Lemma count_never_exceeds_limit_witness :
  let calls :=
    replicate 40 {| hit_key := lit "unknown"; hit_window := 60000; hit_now := 5 |} in
  rateLimit_run 30 calls ∅ !! lit "unknown" =
    Some {| count := 30; resetAt := 60005 |} ∧
  1 ≤ 30 ≤ 30.
Proof.
  intros calls.
  assert (rateLimit_run 30 calls ∅ !! lit "unknown" =
            Some {| count := 30; resetAt := 60005 |}) as Hrun
    by (vm_compute; reflexivity).
  split; [exact Hrun|].
  exact (proj1 (count_never_exceeds_limit calls (lit "unknown")) _ Hrun).
Defined.

(** ** The rate-limited route *)

Lemma ceil_seconds_bounds (ms : Z) :
  1000 * (ceil_seconds ms - 1) < ms ≤ 1000 * ceil_seconds ms.
Proof.
  unfold ceil_seconds.
  pose proof (Z.div_mod (- ms) 1000 ltac:(lia)).
  pose proof (Z.mod_pos_bound (- ms) 1000 ltac:(lia)).
  lia.
Qed.

Lemma js_String_inj (a b : Z) : js_String a = js_String b → a = b.
Proof.
  unfold js_String, lit. intros H.
  apply (inj pretty).
  rewrite <- (String.string_of_list_ascii_of_string (pretty a)).
  rewrite <- (String.string_of_list_ascii_of_string (pretty b)).
  f_equal. revert H.
  generalize (String.list_ascii_of_string (pretty a)).
  generalize (String.list_ascii_of_string (pretty b)).
  intros l2 l1. revert l2.
  induction l1 as [|x l1 IH]; intros [|y l2]; simpl; try done.
  intros [= Hxy Hrest]. f_equal; [|by apply IH].
  rewrite <- (Ascii.ascii_N_embedding x), <- (Ascii.ascii_N_embedding y).
  by rewrite Hxy.
Qed.

Lemma handle_status (generateContent : provider) (req : Request) (r : Response) :
  handle generateContent req = Ok r → status r = 200 ∨ status r = 400.
Proof.
  unfold handle.
  destruct (json req) as [b|]; simpl; [|done].
  destruct (get b (lit "messages")) as [msgs|]; simpl; [|done].
  destruct msgs; try (intros [= <-]; by right).
  destruct (clampMessages elems) as [messages|]; simpl; [|done].
  case_decide; [intros [= <-]; by right|].
  destruct (generateContent _); simpl; [|done].
  intros [= <-]. by left.
Qed.

Lemma POST_hits (generateContent : provider) now req hits :
  (POST generateContent now req hits).1 =
  (rateLimit (client_ip req) 30 60000 now hits).1.
Proof.
  unfold POST. destruct (rateLimit _ _ _ _ _) as [hits' rl]. simpl.
  by destruct (ok rl).
Qed.

Lemma POST_admitted (generateContent : provider) now req hits :
  ok (rateLimit (client_ip req) 30 60000 now hits).2 = true →
  (POST generateContent now req hits).2 =
    match handle generateContent req with
    | Ok r => r
    | Throw _ => error_response 500 [] (lit "Server error")
    end.
Proof.
  unfold POST. destruct (rateLimit _ _ _ _ _) as [hits' rl]. simpl.
  by intros ->.
Qed.

Lemma POST_limited (generateContent : provider) now req hits :
  ok (rateLimit (client_ip req) 30 60000 now hits).2 = false →
  (POST generateContent now req hits).2 =
    error_response 429
      [(lit "retry-after",
        js_String (ceil_seconds
          (default 0 (retryAfterMs (rateLimit (client_ip req) 30 60000 now hits).2))))]
      (lit "Rate limit exceeded").
Proof.
  unfold POST. destruct (rateLimit _ _ _ _ _) as [hits' rl]. simpl.
  by intros ->.
Qed.

Lemma POST_admitted_status (generateContent : provider) now req hits :
  ok (rateLimit (client_ip req) 30 60000 now hits).2 = true →
  status (POST generateContent now req hits).2 ≠ 429.
Proof.
  intros Hok. rewrite POST_admitted by done.
  destruct (handle generateContent req) as [r|] eqn:Hr; simpl; [|done].
  apply handle_status in Hr as [-> | ->]; done.
Qed.

(** Inside a window, the count of a key grows by one per request of
    that key until it stays at 30. *)
Lemma serve_window (key : jsstring) (R : Z) (later : list call) :
  ∀ (hits : gmap jsstring entry) (n0 : Z),
    hits !! key = Some {| count := n0; resetAt := R |} →
    1 ≤ n0 ≤ 30 →
    (∀ c', c' ∈ later → client_ip (request c') = key → clock c' ≤ R) →
    serve later hits !! key =
      Some {| count :=
                Z.min (n0 + Z.of_nat (length (filter (λ c', client_ip (request c') = key) later))) 30;
              resetAt := R |}.
Proof.
  induction later as [|c later IH]; intros hits n0 Hcur Hn0 Hclock; simpl.
  - rewrite Hcur. do 2 f_equal. lia.
  - unfold serve_one. rewrite POST_hits.
    assert (∀ c', c' ∈ later → client_ip (request c') = key → clock c' ≤ R) as Hlater.
    { intros c' Hin. apply Hclock. by apply list_elem_of_further. }
    destruct (decide (client_ip (request c) = key)) as [Hkey|Hkey].
    + rewrite filter_cons_True by done. simpl length.
      assert (clock c ≤ R) as Hc by (apply Hclock; [apply list_elem_of_here|done]).
      rewrite Hkey.
      destruct (decide (n0 < 30)) as [Hlt|Hge].
      * rewrite (rateLimit_counted key 30 60000 (clock c) hits _ Hcur) by (simpl; lia).
        simpl. rewrite (IH _ (n0 + 1)); [do 2 f_equal; lia| |lia|done].
        apply lookup_insert_eq.
      * rewrite (rateLimit_rejected key 30 60000 (clock c) hits _ Hcur) by (simpl; lia).
        simpl. rewrite (IH _ n0); [do 2 f_equal; lia|done|lia|done].
    + rewrite filter_cons_False by done.
      apply IH; [|done|done].
      by rewrite rateLimit_other.
Qed.

(** C1 (amended). Let a request of a key open a window at clock [t0],
    and let any requests follow, of this and of other keys, those of the
    key no later than [t0 + 60000]. Then the first request is not
    rate-limited; a further request of the key by [t0 + 60000] is not
    rate-limited as long as fewer than 30 requests of the key precede it
    in the window; and from the 31st on it is answered with status 429
    and a [retry-after] header holding the milliseconds until the reset
    time divided by 1000 and rounded up: a non-negative integer, positive
    when the request arrives before the reset time. *)
Theorem thirty_requests_per_window (hits : gmap jsstring entry)
    (first : call) (later : list call) (c : call) :
  let key := client_ip (request first) in
  let t0 := clock first in
  (hits !! key = None ∨ ∃ cur, hits !! key = Some cur ∧ t0 > resetAt cur) →
  (∀ c', c' ∈ later → client_ip (request c') = key → clock c' ≤ t0 + 60000) →
  client_ip (request c) = key →
  clock c ≤ t0 + 60000 →
  let earlier := S (length (filter (λ c', client_ip (request c') = key) later)) in
  let r := (serve_one c (serve (first :: later) hits)).2 in
  status (serve_one first hits).2 ≠ 429 ∧
  ((earlier < 30)%nat → status r ≠ 429) ∧
  ((30 ≤ earlier)%nat →
     let secs := ceil_seconds (t0 + 60000 - clock c) in
     r = error_response 429 [(lit "retry-after", js_String secs)]
           (lit "Rate limit exceeded") ∧
     0 ≤ secs ∧
     1000 * (secs - 1) < t0 + 60000 - clock c ≤ 1000 * secs ∧
     (clock c < t0 + 60000 → 0 < secs)).
Proof.
  intros key t0 Hopen Hlater Hkey Hclock earlier r.
  pose proof (rateLimit_new_window key 30 60000 t0 hits Hopen) as Hfirst.
  assert (serve (first :: later) hits !! key =
            Some {| count := Z.min (Z.of_nat earlier) 30; resetAt := t0 + 60000 |}) as Hentry.
  { simpl. unfold serve_one at 1. rewrite POST_hits. fold key t0. rewrite Hfirst. simpl.
    rewrite (serve_window key (t0 + 60000) later _ 1); [|apply lookup_insert_eq|lia|done].
    do 2 f_equal. unfold earlier. lia. }
  split_and!.
  - unfold serve_one. apply POST_admitted_status. fold key t0. by rewrite Hfirst.
  - intros Hfew. unfold r, serve_one. apply POST_admitted_status. rewrite Hkey.
    rewrite (rateLimit_counted key 30 60000 (clock c) _ _ Hentry); simpl; [done|lia|lia].
  - intros Hmany secs.
    pose proof (ceil_seconds_bounds (t0 + 60000 - clock c)) as Hceil. fold secs in Hceil.
    split_and!; try lia.
    unfold r, serve_one. rewrite POST_limited; rewrite Hkey;
      rewrite (rateLimit_rejected key 30 60000 (clock c) _ _ Hentry); simpl; try lia; done.
Qed.

Lemma thirty_requests_per_window_witness :
  let later := replicate 29 (bare_call 1000) in
  let r := (serve_one (bare_call 2500) (serve (bare_call 0 :: later) ∅)).2 in
  let secs := ceil_seconds (0 + 60000 - 2500) in
  status (serve_one (bare_call 0) ∅).2 ≠ 429 ∧
  r = error_response 429 [(lit "retry-after", js_String secs)]
        (lit "Rate limit exceeded") ∧
  secs = 58.
Proof.
  intros later r secs.
  destruct (thirty_requests_per_window ∅ (bare_call 0) later (bare_call 2500))
    as (Hfirst & _ & Hlimited).
  - left. reflexivity.
  - intros c' Hin _. unfold later in Hin.
    apply elem_of_replicate in Hin as [-> _]. simpl. lia.
  - reflexivity.
  - simpl. lia.
  - destruct Hlimited as (Hr & _).
    + vm_compute. lia.
    + split_and!; [exact Hfirst|exact Hr|reflexivity].
Defined.

(** C1 as stated fails at the reset time itself: thirty requests at
    clock 0 open and fill the window that resets at 60000; the 31st,
    arriving at 60000, is still inside the window and is answered 429
    with [retry-after: 0], which is not positive. *)
Lemma retry_after_zero_at_reset :
  let hits := serve (replicate 30 (bare_call 0)) ∅ in
  let r := (serve_one (bare_call 60000) hits).2 in
  hits !! client_ip bare_request = Some {| count := 30; resetAt := 0 + 60000 |} ∧
  status r = 429 ∧
  header (lit "retry-after") r = Some (js_String 0) ∧
  ¬ retry_after_positive r.
Proof.
  intros hits r.
  assert (header (lit "retry-after") r = Some (js_String 0)) as Hheader
    by (vm_compute; reflexivity).
  split_and!.
  - vm_compute. reflexivity.
  - vm_compute. reflexivity.
  - exact Hheader.
  - intros (secs & Hpos & Hsecs). rewrite Hheader in Hsecs.
    injection Hsecs as Hsecs. apply js_String_inj in Hsecs. lia.
Qed.

Lemma POST_forwarding (generateContent : provider) now req hits b elems messages :
  ok (rateLimit (client_ip req) 30 60000 now hits).2 = true →
  json req = Ok b →
  get b (lit "messages") = Ok (VArr elems) →
  clampMessages elems = Ok messages →
  messages ≠ [] →
  (POST generateContent now req hits).2 =
    match generateContent (generation_request messages) with
    | Ok text => text_response (default [] text)
    | Throw _ => error_response 500 [] (lit "Server error")
    end.
Proof.
  intros Hok Hjson Hget Hclamp Hne. rewrite POST_admitted by done.
  unfold handle. rewrite Hjson. simpl. rewrite Hget. simpl. rewrite Hclamp. simpl.
  rewrite decide_False by (by destruct messages).
  by destruct (generateContent _).
Qed.

(** C2. When a request passes the rate limiter, carries usable
    messages, and the provider call fails with whatever exception, the
    answer is status 500 with the fixed body [{ error: "Server error" }]:
    it is the same answer for every exception, so nothing of the
    exception reaches the client. *)
Theorem failure_is_generic (generateContent : provider) (now : Z)
    (req : Request) (hits : gmap jsstring entry)
    (b : jsval) (elems : list jsval) (messages : list ChatMessage) (e : exn) :
  ok (rateLimit (client_ip req) 30 60000 now hits).2 = true →
  json req = Ok b →
  get b (lit "messages") = Ok (VArr elems) →
  clampMessages elems = Ok messages →
  messages ≠ [] →
  generateContent (generation_request messages) = Throw e →
  let r := (POST generateContent now req hits).2 in
  r = error_response 500 [] (lit "Server error") ∧
  status r = 500 ∧
  body r = VObj [(lit "error", VStr (lit "Server error"))] ∧
  (∀ (other : provider) (e' : exn),
     other (generation_request messages) = Throw e' →
     (POST other now req hits).2 = r).
Proof.
  intros Hok Hjson Hget Hclamp Hne Hthrow r.
  assert (r = error_response 500 [] (lit "Server error")) as Hr.
  { unfold r. rewrite (POST_forwarding _ _ _ _ b elems messages) by done.
    by rewrite Hthrow. }
  split_and!; [done|by rewrite Hr|by rewrite Hr|].
  intros other e' Hother.
  rewrite (POST_forwarding _ _ _ _ b elems messages) by done.
  by rewrite Hother, Hr.
Qed.

Lemma failure_is_generic_witness :
  let r := (POST (failing_provider "API key not valid") 0 hello_request ∅).2 in
  r = error_response 500 [] (lit "Server error") ∧
  status r = 500 ∧
  body r = VObj [(lit "error", VStr (lit "Server error"))] ∧
  (∀ (other : provider) (e' : exn),
     other (generation_request
              [{| role := VStr (lit "user"); content := lit "hello" |}]) = Throw e' →
     (POST other 0 hello_request ∅).2 = r).
Proof.
  apply (failure_is_generic (failing_provider "API key not valid") 0 hello_request ∅
           (VObj [(lit "messages", VArr [message_of "user" (lit "hello")])])
           [message_of "user" (lit "hello")]
           [{| role := VStr (lit "user"); content := lit "hello" |}]
           (Exn (VStr (lit "API key not valid")))).
  - reflexivity.
  - reflexivity.
  - reflexivity.
  - vm_compute. reflexivity.
  - discriminate.
  - reflexivity.
Defined.

(** Whatever throws inside the [try] block is answered the same way. *)
Lemma POST_throw (generateContent : provider) now req hits e :
  ok (rateLimit (client_ip req) 30 60000 now hits).2 = true →
  handle generateContent req = Throw e →
  (POST generateContent now req hits).2 = error_response 500 [] (lit "Server error").
Proof. intros Hok Hthrow. rewrite POST_admitted by done. by rewrite Hthrow. Qed.

(** The route without the rate limiter answers with the text of the
    exception instead. *)
Example unlimited_forwards_message :
  Unlimited.POST None (λ _, echo_provider) hello_request =
    error_response 500 [] (lit "Missing GEMINI_API_KEY environment variable.").
Proof. vm_compute. reflexivity. Qed.

Lemma clamp_window_blank (window : list jsval) :
  Forall blank_message window → clamp_window window = Ok [].
Proof.
  unfold clamp_window.
  induction 1 as [|m window (r & c & Hr & Hc & Hblank) _ IH]; simpl; [done|].
  assert (clamp_one m = Ok {| role := r; content := take 4000 (content_text c) |}) as ->.
  { apply clamp_one_Ok. by exists r, c. }
  simpl. destruct (map_throwing clamp_one window) as [trimmed|]; simpl in *; [|done].
  injection IH as IH. rewrite filter_cons_False; [by rewrite IH|].
  rewrite usable_iff. simpl. tauto.
Qed.

Lemma clampMessages_blank (elems : list jsval) :
  Forall blank_message elems → clampMessages elems = Ok [].
Proof.
  intros Hall. rewrite clampMessages_window.
  rewrite clampMessages_short by (by apply (js_slice_last_length 20)).
  apply clamp_window_blank. unfold MAX_MESSAGES.
  rewrite js_slice_last by lia. by apply Forall_drop.
Qed.

(** C5 (amended). The answer has status 400 exactly when the request
    passed the rate limiter, its body parsed to a value whose
    [messages] can be read, and either [messages] is not an array
    (which includes a missing [messages]) or the clamped list is empty.
    In particular an admitted conversation of messages that are empty
    or white space only is answered 400. *)
Theorem bad_request_iff (generateContent : provider) (now : Z)
    (req : Request) (hits : gmap jsstring entry) :
  (status (POST generateContent now req hits).2 = 400 ↔
     ok (rateLimit (client_ip req) 30 60000 now hits).2 = true ∧
     ∃ b msgs,
       json req = Ok b ∧ get b (lit "messages") = Ok msgs ∧
       ((∀ elems, msgs ≠ VArr elems) ∨
        (∃ elems, msgs = VArr elems ∧ clampMessages elems = Ok []))) ∧
  (∀ b elems,
     ok (rateLimit (client_ip req) 30 60000 now hits).2 = true →
     json req = Ok b →
     get b (lit "messages") = Ok (VArr elems) →
     Forall blank_message elems →
     (POST generateContent now req hits).2 =
       error_response 400 [] (lit "No usable messages")).
Proof.
  assert (∀ b msgs,
    ok (rateLimit (client_ip req) 30 60000 now hits).2 = true →
    json req = Ok b → get b (lit "messages") = Ok msgs →
    ((∀ elems, msgs ≠ VArr elems) →
       (POST generateContent now req hits).2 =
         error_response 400 [] (lit "Missing messages[]")) ∧
    (∀ elems, msgs = VArr elems → clampMessages elems = Ok [] →
       (POST generateContent now req hits).2 =
         error_response 400 [] (lit "No usable messages"))) as Hbad.
  { intros b msgs Hok Hjson Hget. rewrite POST_admitted by done.
    unfold handle. rewrite Hjson. simpl. rewrite Hget. simpl. split.
    - intros Hnot. destruct msgs; try done. by destruct (Hnot elems).
    - intros elems -> ->. done. }
  split.
  - split.
    + intros H400.
      destruct (ok (rateLimit (client_ip req) 30 60000 now hits).2) eqn:Hok;
        [|by rewrite POST_limited in H400 by done].
      split; [done|]. rewrite POST_admitted in H400 by done.
      unfold handle in H400.
      destruct (json req) as [b|] eqn:Hjson; simpl in H400; [|done].
      destruct (get b (lit "messages")) as [msgs|] eqn:Hget; simpl in H400; [|done].
      exists b, msgs. split_and!; [done|done|].
      destruct msgs; try (by left).
      right. exists elems. split; [done|].
      destruct (clampMessages elems) as [messages|]; simpl in H400; [|done].
      case_decide as Hlen; [by destruct messages|].
      by destruct (generateContent _).
    + intros (Hok & b & msgs & Hjson & Hget & [Hnot | (elems & -> & Hclamp)]).
      * destruct (Hbad b msgs Hok Hjson Hget) as [H1 _]. by rewrite H1.
      * destruct (Hbad b (VArr elems) Hok Hjson Hget) as [_ H2].
        by rewrite (H2 elems).
  - intros b elems Hok Hjson Hget Hblank.
    destruct (Hbad b (VArr elems) Hok Hjson Hget) as [_ H2].
    apply (H2 elems); [done|]. by apply clampMessages_blank.
Qed.

Lemma bad_request_iff_witness :
  let req := {| x_forwarded_for := None; x_real_ip := Some (lit "10.0.0.7");
                json := Ok (VObj [(lit "messages",
                                   VArr [message_of "user" (lit "  ");
                                         message_of "user" []])]) |} in
  status (POST echo_provider 0 req ∅).2 = 400 ∧
  (POST echo_provider 0 req ∅).2 = error_response 400 [] (lit "No usable messages").
Proof.
  intros req.
  pose proof (bad_request_iff echo_provider 0 req ∅) as [Hiff Hblank].
  split.
  - apply Hiff. split; [reflexivity|].
    eexists _, _. split_and!; [reflexivity|reflexivity|].
    right. eexists. split; [reflexivity|]. vm_compute. reflexivity.
  - eapply Hblank; [reflexivity|reflexivity|reflexivity|].
    repeat constructor; eexists _, _; (split_and!; [reflexivity|reflexivity|]);
      vm_compute; repeat constructor.
Defined.

(** C5 as stated fails for a client that is over its limit: the body
    has no [messages], and the answer is 429, not 400. *)
Lemma missing_messages_while_limited :
  let hits := serve (replicate 30 (bare_call 0)) ∅ in
  let r := (POST echo_provider 1 bare_request hits).2 in
  json bare_request = Ok (VObj []) ∧
  get (VObj []) (lit "messages") = Ok VUndefined ∧
  status r = 429 ∧
  status r ≠ 400.
Proof. vm_compute. split_and!; (reflexivity || discriminate). Qed.

(** Nor is a body that cannot be parsed, or that is [null], answered
    400: both throw inside the [try] block. *)
Example null_body_is_500 :
  (POST echo_provider 0
     {| x_forwarded_for := None; x_real_ip := None; json := Ok VNull |} ∅).2
  = error_response 500 [] (lit "Server error").
Proof. reflexivity. Qed.

(** C7 (amended). The object given to the provider maps the clamped
    messages one to one, in order: the text is the content, the role
    [assistant] becomes [model], the role [user] (and any other role)
    becomes [user]. It carries the system instruction "You are a
    helpful assistant. Be concise and accurate.", at most 512 output
    tokens, and temperature 0.7; and the answer of the endpoint is
    decided by what the provider does with exactly this object. *)
Theorem forwarded_request_shape (messages : list ChatMessage) :
  let q := generation_request messages in
  length (contents q) = length messages ∧
  (∀ i m, messages !! i = Some m →
     ∃ k, contents q !! i = Some k ∧ parts k = [content m] ∧
          (role m = VStr (lit "assistant") → provider_role k = lit "model") ∧
          (role m = VStr (lit "user") → provider_role k = lit "user") ∧
          (role m ≠ VStr (lit "assistant") → provider_role k = lit "user")) ∧
  systemInstruction q =
    Some (lit "You are a helpful assistant. Be concise and accurate.") ∧
  maxOutputTokens (config q) = 512 ∧
  temperature (config q) = 0.7%float ∧
  model q = lit "gemini-3-flash-preview" ∧
  (∀ (generateContent : provider) now req hits b elems,
     ok (rateLimit (client_ip req) 30 60000 now hits).2 = true →
     json req = Ok b →
     get b (lit "messages") = Ok (VArr elems) →
     clampMessages elems = Ok messages →
     messages ≠ [] →
     (POST generateContent now req hits).2 =
       match generateContent q with
       | Ok text => text_response (default [] text)
       | Throw _ => error_response 500 [] (lit "Server error")
       end).
Proof.
  intros q. split_and!; try done.
  - unfold q. simpl. by rewrite length_fmap.
  - intros i m Hm. exists (to_content m). split_and!.
    + unfold q. simpl. by rewrite list_lookup_fmap, Hm.
    + done.
    + unfold to_content. by intros ->.
    + unfold to_content. by intros ->.
    + unfold to_content. intros Hrole. simpl.
      destruct (role m); try done. case_decide; [congruence|done].
  - intros generateContent now req hits b elems Hok Hjson Hget Hclamp Hne.
    by apply (POST_forwarding _ _ _ _ b elems messages).
Qed.

Lemma forwarded_request_shape_witness :
  let messages := [{| role := VStr (lit "user"); content := lit "hello" |}] in
  let q := generation_request messages in
  contents q = [{| provider_role := lit "user"; parts := [lit "hello"] |}] ∧
  (POST echo_provider 0 hello_request ∅).2 = text_response (lit "hi").
Proof.
  intros messages q.
  destruct (forwarded_request_shape messages)
    as (_ & _ & _ & _ & _ & _ & Hpost).
  split; [reflexivity|].
  rewrite (Hpost echo_provider 0 hello_request ∅
             (VObj [(lit "messages", VArr [message_of "user" (lit "hello")])])
             [message_of "user" (lit "hello")]).
  - reflexivity.
  - reflexivity.
  - reflexivity.
  - reflexivity.
  - vm_compute. reflexivity.
  - discriminate.
Defined.

(** C7 as stated names another system instruction than the one the
    route sends. *)
Lemma system_instruction_differs :
  systemInstruction
    (generation_request [{| role := VStr (lit "user"); content := lit "hello" |}])
  ≠ Some (lit "be a concise, accurate assistant").
Proof. vm_compute. discriminate. Qed.

(** ** The chat page *)

Lemma trim_start_split (s : jsstring) :
  ∃ a, s = a ++ trim_start s ∧ Forall (λ c, is_js_space c = true) a.
Proof.
  induction s as [|c s (a & Hs & Ha)]; simpl.
  - by exists [].
  - destruct (is_js_space c) eqn:Hc.
    + exists (c :: a). split; [by rewrite Hs at 1|by constructor].
    + by exists [].
Qed.

Lemma trim_end_split (s : jsstring) :
  ∃ b, s = trim_end s ++ b ∧ Forall (λ c, is_js_space c = true) b.
Proof.
  unfold trim_end. destruct (trim_start_split (reverse s)) as (a & Hs & Ha).
  exists (reverse a). split; [|by apply Forall_reverse].
  rewrite <- reverse_app, <- Hs. by rewrite reverse_involutive.
Qed.


Lemma trim_ends (s : jsstring) (c : N) :
  head (trim s) = Some c ∨ last (trim s) = Some c → is_js_space c = false.
Proof.
  unfold trim. intros [Hhead | Hlast].
  - destruct (trim_end_split (trim_start s)) as (b & Hb & _).
    destruct (trim_end (trim_start s)) as [|d t]; simplify_eq/=.
    by eapply trim_start_head.
  - unfold trim_end in Hlast. rewrite last_reverse in Hlast.
    destruct (trim_start (reverse (trim_start s))) as [|d t] eqn:E; simplify_eq/=.
    by eapply trim_start_head.
Qed.

Lemma trim_start_fixed (t : jsstring) :
  (∀ c, head t = Some c → is_js_space c = false) → trim_start t = t.
Proof. destruct t as [|c t]; simpl; [done|]. intros H. by rewrite H. Qed.

Lemma trim_fixed (t : jsstring) :
  (∀ c, head t = Some c → is_js_space c = false) →
  (∀ c, last t = Some c → is_js_space c = false) →
  trim t = t.
Proof.
  intros Hhead Hlast. unfold trim, trim_end.
  rewrite (trim_start_fixed t) by done.
  rewrite trim_start_fixed; [apply reverse_involutive|].
  intros c. rewrite head_reverse. apply Hlast.
Qed.

(** C8 (amended). On a 2xx response whose body parses, [send] appends
    exactly one message, of role assistant, and clears [loading]. Its
    content is the returned [text] with the white space at both ends
    removed, or "(no response)" when nothing is left of it (or when
    [text] is not a string): so the content equals the returned text
    when that text is not empty and neither starts nor ends with white
    space, and it is the placeholder when the returned text is empty. *)
Theorem send_appends_reply (st : Page.State) (status : Z)
    (text : result jsstring) (data : jsval) :
  200 ≤ status ≤ 299 →
  let returned :=
    match get_opt data (lit "text") with VStr s => s | _ => [] end in
  let st' := Page.send_settle (Page.Responded status text (Ok data)) st in
  ∃ reply,
    Page.messages st' = Page.messages st ++ [reply] ∧
    Page.loading st' = false ∧
    Page.role reply = Page.assistant ∧
    (trim returned ≠ [] → Page.content reply = trim returned) ∧
    (trim returned = [] → Page.content reply = lit "(no response)") ∧
    (returned = [] → Page.content reply = lit "(no response)") ∧
    (returned ≠ [] →
     (∀ c, head returned = Some c → is_js_space c = false) →
     (∀ c, last returned = Some c → is_js_space c = false) →
     Page.content reply = returned).
Proof.
  intros Hstatus returned st'.
  assert (Page.reply (Page.Responded status text (Ok data)) =
    Ok {| Page.role := Page.assistant;
          Page.content := if bool_decide (trim returned = [])
                          then lit "(no response)" else trim returned |}) as Hreply.
  { unfold Page.reply.
    replace ((200 <=? status) && (status <=? 299)) with true; [done|].
    symmetry. apply andb_true_iff. split; apply Z.leb_le; lia. }
  eexists. unfold st', Page.send_settle. rewrite Hreply. simpl.
  split_and!; try done.
  - intros Hne. by rewrite bool_decide_eq_false_2.
  - intros He. by rewrite bool_decide_eq_true_2.
  - intros ->. done.
  - intros Hne Hhead Hlast. rewrite trim_fixed by done.
    by rewrite bool_decide_eq_false_2.
Qed.

Lemma send_appends_reply_witness :
  let data := VObj [(lit "text", VStr (lit "Paris."))] in
  let st' := Page.send_settle (Page.Responded 200 (Ok []) (Ok data)) waiting_page in
  ∃ reply,
    Page.messages st' = Page.messages waiting_page ++ [reply] ∧
    Page.loading st' = false ∧
    Page.role reply = Page.assistant ∧
    Page.content reply = lit "Paris.".
Proof.
  intros data st'.
  destruct (send_appends_reply waiting_page 200 (Ok []) data)
    as (reply & Hmsgs & Hloading & Hrole & _ & _ & _ & Hsame).
  - lia.
  - exists reply. split_and!; [exact Hmsgs|exact Hloading|exact Hrole|].
    apply Hsame.
    + discriminate.
    + intros c [= <-]. reflexivity.
    + intros c [= <-]. reflexivity.
Defined.

(** C8 as stated fails on a returned text with white space at an end:
    the appended content is the trimmed text, not the text. *)
Lemma reply_is_trimmed :
  let data := VObj [(lit "text", VStr (lit "Paris." ++ [10%N]))] in
  let st' := Page.send_settle (Page.Responded 200 (Ok []) (Ok data)) waiting_page in
  Page.messages st' =
    Page.messages waiting_page ++
      [{| Page.role := Page.assistant; Page.content := lit "Paris." |}] ∧
  lit "Paris." ≠ lit "Paris." ++ [10%N].
Proof. split; [vm_compute; reflexivity|discriminate]. Qed.

(** A returned text of white space only is not empty, and is replaced
    by the placeholder all the same. *)
Example blank_reply_is_placeholder :
  Page.reply (Page.Responded 200 (Ok []) (Ok (VObj [(lit "text", VStr (lit "  "))])))
  = Ok {| Page.role := Page.assistant; Page.content := lit "(no response)" |}.
Proof. vm_compute. reflexivity. Qed.

(** A response that is not 2xx ends in the failure notice. *)
Example failed_reply_notice :
  Page.messages
    (Page.send_settle (Page.Responded 500 (Ok []) (Ok VNull)) waiting_page)
  = Page.messages waiting_page ++
      [{| Page.role := Page.assistant;
          Page.content :=
            lit "Sorry " ++ [8212%N] ++ lit " something went wrong." ++ [10%N] ++
            lit "Request failed (500)" |}].
Proof. vm_compute. reflexivity. Qed.

(** * Further properties of the code *)

Set Warnings "-clear-no-such-hyp".

(** ** The rate limiter, one call *)

Lemma rateLimit_rejected_inv (key : jsstring) (limit windowMs now : Z)
    (hits : gmap jsstring entry) :
  ok (rateLimit key limit windowMs now hits).2 = false →
  ∃ cur, hits !! key = Some cur ∧ now ≤ resetAt cur ∧ count cur >= limit ∧
         rateLimit key limit windowMs now hits =
           (hits, {| ok := false; retryAfterMs := Some (resetAt cur - now) |}).
Proof.
  unfold rateLimit. destruct (hits !! key) as [cur|]; [|done].
  repeat case_decide; simpl; try done.
  intros _. exists cur. split_and!; [done|lia|done|done].
Qed.

(** What the verdict and the next entry of a key are depends on the
    entry of that key alone. *)
Lemma rateLimit_local (key : jsstring) (limit windowMs now : Z)
    (hits1 hits2 : gmap jsstring entry) :
  hits1 !! key = hits2 !! key →
  (rateLimit key limit windowMs now hits1).2 = (rateLimit key limit windowMs now hits2).2 ∧
  (rateLimit key limit windowMs now hits1).1 !! key =
    (rateLimit key limit windowMs now hits2).1 !! key.
Proof.
  intros Heq. unfold rateLimit. rewrite <- Heq.
  destruct (hits1 !! key) as [cur|] eqn:Hcur; repeat case_decide; simpl;
    rewrite ?lookup_insert_eq; try done.
  by rewrite Hcur, <- Heq.
Qed.

(** X1. The entry of a key after any interleaving of calls is the entry
    it would have if only the calls of that key had been made: the
    traffic of other clients never changes what a client is allowed. *)
Theorem rateLimit_run_isolated (limit : Z) (key : jsstring) (calls : list hit)
    (hits : gmap jsstring entry) :
  rateLimit_run limit calls hits !! key =
  rateLimit_run limit (filter (λ c, hit_key c = key) calls) hits !! key.
Proof.
  enough (∀ hits1 hits2 : gmap jsstring entry,
    hits1 !! key = hits2 !! key →
    rateLimit_run limit calls hits1 !! key =
    rateLimit_run limit (filter (λ c, hit_key c = key) calls) hits2 !! key) as H
    by by apply H.
  induction calls as [|c calls IH]; intros hits1 hits2 Heq; simpl; [done|].
  destruct (decide (hit_key c = key)) as [Hkey|Hkey].
  - rewrite filter_cons_True by done. simpl. apply IH. rewrite Hkey.
    by apply rateLimit_local.
  - rewrite filter_cons_False by done. apply IH.
    by rewrite rateLimit_other.
Qed.

(** X2. Entries are never removed: after any sequence of calls the map
    holds exactly the keys it held before and the keys that were
    called, whether the calls were accepted or not. *)
Theorem rateLimit_run_keys (limit : Z) (calls : list hit)
    (hits : gmap jsstring entry) :
  dom (rateLimit_run limit calls hits) =
  dom hits ∪ list_to_set (hit_key <$> calls).
Proof.
  revert hits. induction calls as [|c calls IH]; intros hits; simpl.
  - set_solver.
  - rewrite IH.
    assert (dom (rateLimit (hit_key c) limit (hit_window c) (hit_now c) hits).1
            = {[hit_key c]} ∪ dom hits) as ->; [|set_solver].
    unfold rateLimit. destruct (hits !! hit_key c) as [cur|] eqn:Hcur;
      repeat case_decide; simpl; rewrite ?dom_insert_L; try done.
    apply elem_of_dom_2 in Hcur. set_solver.
Qed.

(** X3. A call either accepts, with no [retryAfterMs], and the key has
    an entry afterwards; or it rejects, and then the map is left as it
    was, the key was at its limit inside its window, and [retryAfterMs]
    is the time left to the reset, never negative. *)
Theorem rateLimit_verdict (key : jsstring) (limit windowMs now : Z)
    (hits : gmap jsstring entry) :
  let hits' := (rateLimit key limit windowMs now hits).1 in
  let v := (rateLimit key limit windowMs now hits).2 in
  (ok v = true ∧ retryAfterMs v = None ∧ is_Some (hits' !! key)) ∨
  (ok v = false ∧ hits' = hits ∧
   ∃ cur ms, hits !! key = Some cur ∧ count cur >= limit ∧ now ≤ resetAt cur ∧
             retryAfterMs v = Some ms ∧ ms = resetAt cur - now ∧ 0 ≤ ms).
Proof.
  intros hits' v. unfold hits', v, rateLimit.
  destruct (hits !! key) as [cur|] eqn:Hcur; repeat case_decide; simpl;
    rewrite ?lookup_insert_eq; try (left; by eauto).
  right. split_and!; try done. exists cur, (resetAt cur - now).
  split_and!; try done; lia.
Qed.

(** ** The rate limiter inside [POST] *)

Lemma POST_status_429 (generateContent : provider) (now : Z) (req : Request)
    (hits : gmap jsstring entry) :
  status (POST generateContent now req hits).2 = 429 ↔
  ok (rateLimit (client_ip req) 30 60000 now hits).2 = false.
Proof.
  destruct (ok (rateLimit (client_ip req) 30 60000 now hits).2) eqn:Hok.
  - split; [|done]. intros H. by apply POST_admitted_status in H.
  - split; [done|]. intros _. by rewrite POST_limited.
Qed.

Lemma serve_other_keys (key : jsstring) (others : list call)
    (hits : gmap jsstring entry) :
  (∀ o, o ∈ others → client_ip (request o) ≠ key) →
  serve others hits !! key = hits !! key.
Proof.
  revert hits. induction others as [|o others IH]; intros hits Hne; simpl; [done|].
  rewrite IH by (intros o' Ho'; apply Hne; by apply list_elem_of_further).
  unfold serve_one. rewrite POST_hits. apply rateLimit_other.
  apply Hne, list_elem_of_here.
Qed.

Lemma header_retry_after (value msg : jsstring) :
  header (lit "retry-after")
    (error_response 429 [(lit "retry-after", value)] msg) = Some value.
Proof. reflexivity. Qed.

(** X4. When a request is answered 429 with [retry-after: secs], the
    next request of that client gets past the rate limiter if it comes
    more than [secs] seconds later, whatever other clients did in
    between, and is answered 429 again if it comes no later than the
    reset time: so a retry exactly [secs] seconds later still fails
    when the time left was a whole number of seconds. *)
Theorem retry_after_is_enough (c again : call) (others : list call)
    (hits : gmap jsstring entry) :
  let key := client_ip (request c) in
  let r := (serve_one c hits).2 in
  status r = 429 →
  (∀ o, o ∈ others → client_ip (request o) ≠ key) →
  client_ip (request again) = key →
  ∃ cur secs,
    hits !! key = Some cur ∧
    header (lit "retry-after") r = Some (js_String secs) ∧
    secs = ceil_seconds (resetAt cur - clock c) ∧
    0 ≤ resetAt cur - clock c ≤ 1000 * secs ∧
    let hits' := serve others (serve_one c hits).1 in
    (clock again > clock c + 1000 * secs → status (serve_one again hits').2 ≠ 429) ∧
    (clock again ≤ resetAt cur → status (serve_one again hits').2 = 429).
Proof.
  intros key r H429 Hothers Hagain.
  apply POST_status_429 in H429.
  destruct (rateLimit_rejected_inv _ _ _ _ _ H429) as (cur & Hcur & Hnow & Hcount & Heq).
  fold key in Hcur, Heq.
  exists cur, (ceil_seconds (resetAt cur - clock c)).
  pose proof (ceil_seconds_bounds (resetAt cur - clock c)) as Hceil.
  assert (serve others (serve_one c hits).1 !! key = Some cur) as Hentry.
  { rewrite serve_other_keys by done. unfold serve_one. rewrite POST_hits.
    fold key. by rewrite Heq. }
  split; [done|]. split.
  { unfold r, serve_one. rewrite POST_limited by done. fold key. rewrite Heq. simpl.
    apply header_retry_after. }
  split; [done|]. split; [lia|]. intros hits'. split.
  - intros Hlate. unfold serve_one. apply POST_admitted_status. rewrite Hagain.
    rewrite rateLimit_new_window; [done|]. right. exists cur. split; [done|lia].
  - intros Hearly. unfold serve_one. apply POST_status_429. rewrite Hagain.
    by rewrite (rateLimit_rejected key 30 60000 _ _ cur).
Qed.

Lemma retry_after_is_enough_witness :
  status (serve_one (bare_call 58001) full_window).2 = 429 ∧
  header (lit "retry-after") (serve_one (bare_call 58001) full_window).2
    = Some (js_String 2) ∧
  status (serve_one (bare_call 60002)
            (serve [] (serve_one (bare_call 58001) full_window).1)).2 ≠ 429.
Proof.
  assert (status (serve_one (bare_call 58001) full_window).2 = 429) as H429
    by (vm_compute; reflexivity).
  assert (full_window !! lit "unknown" = Some {| count := 30; resetAt := 60000 |})
    as Hhits by (vm_compute; reflexivity).
  destruct (retry_after_is_enough (bare_call 58001) (bare_call 60002) [] full_window)
    as (cur & secs & Hcur & Hheader & Hsecs & _ & Hlate & _).
  - exact H429.
  - intros o Ho. inversion Ho.
  - reflexivity.
  - assert (Some cur = Some {| count := 30; resetAt := 60000 |}) as Hsame
      by (rewrite <- Hcur; exact Hhits).
    injection Hsame as ->.
    assert (secs = 2) as Hs by (rewrite Hsecs; reflexivity).
    split; [exact H429|]. split.
    + rewrite <- Hs. exact Hheader.
    + apply Hlate. rewrite Hsecs. vm_compute. reflexivity.
Defined.

Lemma rateLimit_resets_by (key : jsstring) (now T T' : Z)
    (hits : gmap jsstring entry) :
  resets_by T hits → T ≤ T' → now ≤ T' →
  resets_by T' (rateLimit key 30 60000 now hits).1.
Proof.
  intros Hinv HT Hnow key' cur'.
  destruct (decide (key = key')) as [<-|Hne].
  - unfold rateLimit. destruct (hits !! key) as [cur|] eqn:Hcur.
    + specialize (Hinv _ _ Hcur). repeat case_decide; simpl;
        rewrite ?lookup_insert_eq, ?Hcur; intros [= <-]; simpl; lia.
    + simpl. rewrite lookup_insert_eq. intros [= <-]. simpl. lia.
  - rewrite rateLimit_other by done. intros Hcur'.
    specialize (Hinv _ _ Hcur'). lia.
Qed.

Lemma serve_resets_by (calls : list call) (T : Z) (hits : gmap jsstring entry) :
  resets_by T hits → (∀ c, c ∈ calls → clock c ≤ T) →
  resets_by T (serve calls hits).
Proof.
  revert hits. induction calls as [|c calls IH]; intros hits Hinv Hclock; simpl; [done|].
  apply IH; [|intros c' Hc'; apply Hclock; by apply list_elem_of_further].
  unfold serve_one. rewrite POST_hits.
  apply (rateLimit_resets_by _ _ T); [done|lia|].
  apply Hclock, list_elem_of_here.
Qed.

(** X5. When the server starts with an empty map and no earlier request
    was served at a later clock than the present one, a 429 answer
    carries a [retry-after] between 0 and 60. *)
Theorem retry_after_at_most_60 (calls : list call) (c : call) :
  (∀ c', c' ∈ calls → clock c' ≤ clock c) →
  let r := (serve_one c (serve calls ∅)).2 in
  status r = 429 →
  ∃ secs, 0 ≤ secs ≤ 60 ∧
          r = error_response 429 [(lit "retry-after", js_String secs)]
                (lit "Rate limit exceeded") ∧
          header (lit "retry-after") r = Some (js_String secs).
Proof.
  intros Hclock r H429. apply POST_status_429 in H429.
  destruct (rateLimit_rejected_inv _ _ _ _ _ H429) as (cur & Hcur & Hnow & _ & Heq).
  assert (resets_by (clock c) (serve calls ∅)) as Hinv.
  { apply serve_resets_by; [|done]. intros key e. by rewrite lookup_empty. }
  specialize (Hinv _ _ Hcur).
  pose proof (ceil_seconds_bounds (resetAt cur - clock c)) as Hceil.
  exists (ceil_seconds (resetAt cur - clock c)).
  assert (r = error_response 429
                [(lit "retry-after", js_String (ceil_seconds (resetAt cur - clock c)))]
                (lit "Rate limit exceeded")) as Hr.
  { unfold r, serve_one. rewrite POST_limited by done. by rewrite Heq. }
  split_and!; [lia|lia|done|]. rewrite Hr. apply header_retry_after.
Qed.

Lemma retry_after_at_most_60_witness :
  let r := (serve_one (bare_call 10) (serve (replicate 30 (bare_call 10)) ∅)).2 in
  ∃ secs, 0 ≤ secs ≤ 60 ∧
          r = error_response 429 [(lit "retry-after", js_String secs)]
                (lit "Rate limit exceeded") ∧
          header (lit "retry-after") r = Some (js_String secs).
Proof.
  apply (retry_after_at_most_60 (replicate 30 (bare_call 10)) (bare_call 10)).
  - intros c' Hc'. apply elem_of_replicate in Hc' as [-> _]. simpl. lia.
  - vm_compute. reflexivity.
Defined.

(** ** [clampMessages]: what comes out, and when it throws *)



Lemma clampMessages_Ok (elems : list jsval) (out : list ChatMessage) :
  clampMessages elems = Ok out ↔
  ∃ trimmed,
    Forall2 (λ x y, clamp_one x = Ok y) (js_slice (- MAX_MESSAGES) None elems) trimmed ∧
    out = filter usable trimmed.
Proof.
  unfold clampMessages.
  destruct (map_throwing clamp_one _) as [trimmed|e] eqn:Hmap; simpl.
  - apply map_throwing_Ok in Hmap. split.
    + intros [= <-]. by exists trimmed.
    + intros (trimmed' & Hall & ->). do 2 f_equal.
      apply map_throwing_Ok in Hmap, Hall. congruence.
  - split; [done|]. intros (trimmed' & Hall & _).
    apply map_throwing_Ok in Hall. congruence.
Qed.

Lemma clampMessages_bounds (elems : list jsval) (out : list ChatMessage) :
  clampMessages elems = Ok out →
  (length out ≤ 20)%nat ∧
  Forall (λ m, (length (content m) ≤ 4000)%nat ∧ usable m) out.
Proof.
  intros (trimmed & Hall & ->)%clampMessages_Ok. split.
  - etrans; [apply length_filter|].
    rewrite <- (Forall2_length _ _ _ Hall). by apply (js_slice_last_length 20).
  - apply Forall_forall. intros m [Hm Hin]%list_elem_of_filter. split; [|done].
    apply list_elem_of_lookup in Hin as [i Hi].
    destruct (Forall2_lookup_r _ _ _ _ _ Hall Hi) as (x & _ & Hx).
    apply clamp_one_Ok in Hx as (r & c & _ & _ & ->). simpl.
    rewrite length_take. lia.
Qed.

(** X6. Whatever the conversation, [clampMessages] returns at most 20
    messages and no more than it was given, each with at most 4000 code
    units of content and with a code unit that is not white space, in
    the order of the conversation. *)
Theorem clamp_output_bounded (elems : list jsval) (out : list ChatMessage) :
  clampMessages elems = Ok out →
  (length out ≤ 20)%nat ∧
  (length out ≤ length elems)%nat ∧
  Forall (λ m, (length (content m) ≤ 4000)%nat ∧ ¬ blank (content m)) out ∧
  ∃ trimmed,
    map_throwing clamp_one (js_slice (- MAX_MESSAGES) None elems) = Ok trimmed ∧
    out `sublist_of` trimmed.
Proof.
  intros Hout. destruct (clampMessages_bounds _ _ Hout) as [Hlen Hall].
  apply clampMessages_Ok in Hout as (trimmed & Htrimmed & ->).
  split_and!; [done| | |].
  - etrans; [apply length_filter|].
    rewrite <- (Forall2_length _ _ _ Htrimmed).
    unfold MAX_MESSAGES. rewrite js_slice_last by lia. rewrite length_drop. lia.
  - eapply Forall_impl; [exact Hall|]. intros m [? Hm]. split; [done|].
    by apply usable_iff.
  - exists trimmed. split; [by apply map_throwing_Ok|apply sublist_filter].
Qed.

Lemma clamp_output_bounded_witness :
  let out := [{| role := VStr (lit "user"); content := replicate 4000 97%N |}] in
  (length out ≤ 20)%nat ∧
  (length out ≤ length [long_message; null_content])%nat ∧
  Forall (λ m, (length (content m) ≤ 4000)%nat ∧ ¬ blank (content m)) out ∧
  ∃ trimmed,
    map_throwing clamp_one
      (js_slice (- MAX_MESSAGES) None [long_message; null_content]) = Ok trimmed ∧
    out `sublist_of` trimmed.
Proof.
  apply (clamp_output_bounded [long_message; null_content]).
  vm_compute. reflexivity.
Defined.



Example clamp_ignores_old_null :
  clampMessages (VNull :: numbered_conversation) = clampMessages numbered_conversation.
Proof. vm_compute. reflexivity. Qed.

Lemma clamp_one_as_object (m : ChatMessage) :
  (length (content m) ≤ 4000)%nat → clamp_one (as_object m) = Ok m.
Proof.
  intros Hlen. destruct m as [r c]. apply clamp_one_Ok. exists r, (VStr c).
  split_and!; [done|done|]. simpl in *. f_equal. symmetry. by apply take_ge.
Qed.

(** X8. Clamping is idempotent: what [clampMessages] returns, given
    back to it as objects, comes out unchanged. *)
Theorem clamp_idempotent (elems : list jsval) (out : list ChatMessage) :
  clampMessages elems = Ok out →
  clampMessages (as_object <$> out) = Ok out.
Proof.
  intros [Hlen Hall]%clampMessages_bounds.
  rewrite clampMessages_short by (by rewrite length_fmap).
  clear Hlen. unfold clamp_window.
  induction Hall as [|m out [Hm Hu] _ IH]; [done|].
  rewrite fmap_cons.
  change (map_throwing clamp_one (as_object m :: (as_object <$> out)))
    with (y ← clamp_one (as_object m);
          ys ← map_throwing clamp_one (as_object <$> out); Ok (y :: ys)).
  rewrite clamp_one_as_object by done.
  destruct (map_throwing clamp_one (as_object <$> out)) as [trimmed|]; simpl in *; [|done].
  injection IH as IH. by rewrite filter_cons_True, IH.
Qed.

Lemma clamp_idempotent_witness :
  clampMessages
    (as_object <$> [{| role := VStr (lit "user"); content := replicate 4000 97%N |}])
  = Ok [{| role := VStr (lit "user"); content := replicate 4000 97%N |}].
Proof.
  apply (clamp_idempotent [long_message; null_content]).
  vm_compute. reflexivity.
Defined.

(** ** The answers of the rate-limited route *)

Lemma handle_shape (generateContent : provider) (req : Request) (r : Response) :
  handle generateContent req = Ok r →
  r = error_response 400 [] (lit "Missing messages[]") ∨
  r = error_response 400 [] (lit "No usable messages") ∨
  ∃ text, r = text_response text.
Proof.
  unfold handle.
  destruct (json req) as [b|]; simpl; [|done].
  destruct (get b (lit "messages")) as [msgs|]; simpl; [|done].
  destruct msgs; try (intros [= <-]; by left).
  destruct (clampMessages elems) as [messages|]; simpl; [|done].
  case_decide; [intros [= <-]; right; by left|].
  destruct (generateContent _) as [text|]; simpl; [|done].
  intros [= <-]. right. right. by eexists.
Qed.

(** X9. Every answer of the endpoint has status 200, 400, 429 or 500
    and the JSON content type; it has a [retry-after] header exactly
    when the status is 429; a 200 carries [{ text }], and every other
    answer carries [{ error }] with one of four fixed messages. *)
Theorem POST_response_shape (generateContent : provider) (now : Z)
    (req : Request) (hits : gmap jsstring entry) :
  let r := (POST generateContent now req hits).2 in
  (status r = 200 ∨ status r = 400 ∨ status r = 429 ∨ status r = 500) ∧
  header (lit "content-type") r = Some (lit "application/json") ∧
  (is_Some (header (lit "retry-after") r) ↔ status r = 429) ∧
  (status r = 200 → ∃ text, body r = VObj [(lit "text", VStr text)]) ∧
  (status r ≠ 200 →
   ∃ msg, body r = VObj [(lit "error", VStr msg)] ∧
          msg ∈ [lit "Rate limit exceeded"; lit "Missing messages[]";
                 lit "No usable messages"; lit "Server error"]).
Proof.
  intros r. unfold r.
  destruct (ok (rateLimit (client_ip req) 30 60000 now hits).2) eqn:Hok.
  - rewrite POST_admitted by done.
    destruct (handle generateContent req) as [r'|e] eqn:Hr.
    + apply handle_shape in Hr as [-> | [-> | [text ->]]].
      * split_and!; [by right; left|done|split; [by intros [? ?]|done]|done|].
        intros _. eexists. split; [done|]. set_solver.
      * split_and!; [by right; left|done|split; [by intros [? ?]|done]|done|].
        intros _. eexists. split; [done|]. set_solver.
      * split_and!; [by left|done|split; [by intros [? ?]|done]| |done].
        intros _. by eexists.
    + split_and!; [by do 3 right|done|split; [by intros [? ?]|done]|done|].
      intros _. eexists. split; [done|]. set_solver.
  - rewrite POST_limited by done.
    split_and!; [by right; right; left|done|split; [done|by eexists]|done|].
    intros _. eexists. split; [done|]. set_solver.
Qed.

Lemma to_content_forwardable (m : ChatMessage) :
  (length (content m) ≤ 4000)%nat → usable m → forwardable (to_content m).
Proof.
  intros Hlen Hu. split.
  - unfold to_content. simpl. destruct (role m); try by left.
    case_decide; [by right|by left].
  - exists (content m). split; [done|].
    apply usable_iff in Hu. split; [|done]. split; [|done].
    destruct (content m); [|simpl; lia]. destruct Hu. constructor.
Qed.

(** X10. The map of the rate limiter never depends on the provider, and
    for a given request the endpoint either answers without the
    provider (never with 200), or consults it on one payload: 1 to 20
    contents, each of role [user] or [model] with one text of 1 to 4000
    code units that is not blank; the answer is then decided by what the
    provider does with that payload. *)
Theorem POST_consults_provider_once (now : Z) (req : Request)
    (hits : gmap jsstring entry) :
  (∀ g g' : provider, (POST g now req hits).1 = (POST g' now req hits).1) ∧
  ((∃ r, status r ≠ 200 ∧ ∀ g : provider, (POST g now req hits).2 = r) ∨
   (∃ messages,
      (1 ≤ length (contents (generation_request messages)) ≤ 20)%nat ∧
      Forall forwardable (contents (generation_request messages)) ∧
      ∀ g : provider,
        (POST g now req hits).2 =
          match g (generation_request messages) with
          | Ok text => text_response (default [] text)
          | Throw _ => error_response 500 [] (lit "Server error")
          end)).
Proof.
  split; [intros g g'; by rewrite !POST_hits|].
  destruct (ok (rateLimit (client_ip req) 30 60000 now hits).2) eqn:Hok.
  2:{ left. eexists. split; [|intros g; by rewrite POST_limited]. done. }
  destruct (json req) as [b|e] eqn:Hjson.
  2:{ left. exists (error_response 500 [] (lit "Server error")). split; [done|].
      intros g. rewrite POST_admitted by done. unfold handle. by rewrite Hjson. }
  destruct (get b (lit "messages")) as [msgs|e] eqn:Hget.
  2:{ left. exists (error_response 500 [] (lit "Server error")). split; [done|].
      intros g. rewrite POST_admitted by done. unfold handle.
      rewrite Hjson. simpl. by rewrite Hget. }
  assert (∀ g : provider, (∀ elems, msgs ≠ VArr elems) →
            (POST g now req hits).2 = error_response 400 [] (lit "Missing messages[]"))
    as Hmissing.
  { intros g Hnot. rewrite POST_admitted by done. unfold handle.
    rewrite Hjson. simpl. rewrite Hget. simpl.
    destruct msgs; try done. by destruct (Hnot elems). }
  destruct msgs as [| | | | |elems|];
    try (left; eexists; split; [|intros g; by apply Hmissing]; done).
  destruct (clampMessages elems) as [messages|e] eqn:Hclamp.
  2:{ left. exists (error_response 500 [] (lit "Server error")). split; [done|].
      intros g. rewrite POST_admitted by done. unfold handle.
      rewrite Hjson. simpl. rewrite Hget. simpl. by rewrite Hclamp. }
  destruct (decide (messages = [])) as [->|Hne].
  { left. exists (error_response 400 [] (lit "No usable messages")). split; [done|].
    intros g. rewrite POST_admitted by done. unfold handle.
    rewrite Hjson. simpl. rewrite Hget. simpl. by rewrite Hclamp. }
  right. exists messages.
  destruct (clampMessages_bounds _ _ Hclamp) as [Hlen Hall].
  split_and!.
  - simpl. rewrite length_fmap. destruct messages; [done|simpl; lia].
  - simpl. rewrite length_fmap. done.
  - simpl. apply Forall_fmap. eapply Forall_impl; [exact Hall|].
    intros m [? ?]. by apply to_content_forwardable.
  - intros g. by apply (POST_forwarding _ _ _ _ b elems messages).
Qed.



(** ** The client key *)







(** ** The route without a rate limiter *)

Lemma handle_validated (generateContent : provider) (req : Request) :
  handle generateContent req =
    (v ← validated req;
     match v with
     | inl r => Ok r
     | inr messages =>
         response ← generateContent (generation_request messages);
         Ok (text_response (default [] response))
     end).
Proof.
  unfold handle, validated.
  destruct (json req) as [b|]; simpl; [|done].
  destruct (get b (lit "messages")) as [msgs|]; simpl; [|done].
  destruct msgs; try done.
  destruct (clampMessages elems) as [messages|]; simpl; [|done].
  by case_decide.
Qed.

Lemma unlimited_handle_validated (env_key : option jsstring)
    (generateContent : jsstring → provider) (req : Request) :
  Unlimited.handle env_key generateContent req =
    (v ← validated req;
     match v with
     | inl r => Ok r
     | inr messages =>
         ai ← Unlimited.getAiClient env_key;
         response ← generateContent ai (plain_request messages);
         Ok (text_response (default [] response))
     end).
Proof.
  unfold Unlimited.handle, validated.
  destruct (json req) as [b|]; simpl; [|done].
  destruct (get b (lit "messages")) as [msgs|]; simpl; [|done].
  destruct msgs; try done.
  destruct (clampMessages elems) as [messages|]; simpl; [|done].
  by case_decide.
Qed.

Lemma validated_inl (req : Request) (r : Response) :
  validated req = Ok (inl r) → status r = 400.
Proof.
  unfold validated.
  destruct (json req) as [b|]; simpl; [|done].
  destruct (get b (lit "messages")) as [msgs|]; simpl; [|done].
  destruct msgs; try (by intros [= <-]).
  destruct (clampMessages elems) as [messages|]; simpl; [|done].
  case_decide; [by intros [= <-]|done].
Qed.

Lemma validated_inr (req : Request) (messages : list ChatMessage) :
  validated req = Ok (inr messages) ↔
  messages ≠ [] ∧
  ∃ b elems, json req = Ok b ∧ get b (lit "messages") = Ok (VArr elems) ∧
             clampMessages elems = Ok messages.
Proof.
  unfold validated. split.
  - destruct (json req) as [b|] eqn:Hjson; simpl; [|done].
    destruct (get b (lit "messages")) as [msgs|] eqn:Hget; simpl; [|done].
    destruct msgs; try done.
    destruct (clampMessages elems) as [ms|] eqn:Hclamp; simpl; [|done].
    case_decide as Hlen; [done|]. intros [= <-].
    split; [by intros ->|]. by exists b, elems.
  - intros (Hne & b & elems & -> & Hget & Hclamp). simpl.
    rewrite Hget. simpl. rewrite Hclamp. simpl.
    rewrite decide_False; [done|]. by destruct messages.
Qed.

(** Both branches of the status of the [catch] are 500. *)
Lemma unlimited_POST_catch (env_key : option jsstring)
    (generateContent : jsstring → provider) (req : Request) :
  Unlimited.POST env_key generateContent req =
    match Unlimited.handle env_key generateContent req with
    | Ok r => r
    | Throw err =>
        error_response 500 []
          (match message err with VStr s => s | _ => lit "Server error" end)
    end.
Proof.
  unfold Unlimited.POST.
  destruct (Unlimited.handle env_key generateContent req) as [r|err]; [done|].
  cbv zeta. by destruct (Unlimited.includes _ _).
Qed.

(** X13. In the route without a rate limiter, when the API key is
    missing or empty, a request with usable messages is answered 500
    with the message that names the missing variable, and the provider
    is never consulted; the validation comes first, so the requests that
    are answered 400 with a key are answered the same 400 without one. *)
Theorem unlimited_missing_key (env_key : option jsstring)
    (generateContent : jsstring → provider) (req : Request) :
  env_key = None ∨ env_key = Some [] →
  let r := Unlimited.POST env_key generateContent req in
  (status r = 400 ∨ status r = 500) ∧
  (∀ other : jsstring → provider, Unlimited.POST env_key other req = r) ∧
  (∀ b elems messages,
     json req = Ok b → get b (lit "messages") = Ok (VArr elems) →
     clampMessages elems = Ok messages → messages ≠ [] →
     r = error_response 500 []
           (lit "Missing GEMINI_API_KEY environment variable.")) ∧
  (∀ key other,
     status (Unlimited.POST (Some key) other req) = 400 →
     Unlimited.POST (Some key) other req = r).
Proof.
  intros Hkey r.
  assert (Unlimited.getAiClient env_key =
            Throw (Exn (VStr (lit "Missing GEMINI_API_KEY environment variable."))))
    as Hclient by (by destruct Hkey as [-> | ->]).
  assert (∀ g : jsstring → provider,
    Unlimited.POST env_key g req =
      match validated req with
      | Ok (inl r') => r'
      | Ok (inr _) =>
          error_response 500 [] (lit "Missing GEMINI_API_KEY environment variable.")
      | Throw e =>
          error_response 500 []
            (match message e with VStr s => s | _ => lit "Server error" end)
      end) as Hpost.
  { intros g. rewrite unlimited_POST_catch, unlimited_handle_validated.
    destruct (validated req) as [[r'|messages]|e]; simpl; [done| |done].
    by rewrite Hclient. }
  unfold r. rewrite Hpost. split_and!.
  - destruct (validated req) as [[r'|messages]|e] eqn:Hv; [|by right..].
    left. by apply validated_inl in Hv.
  - intros other. by rewrite Hpost.
  - intros b elems messages Hjson Hget Hclamp Hne.
    assert (validated req = Ok (inr messages)) as ->; [|done].
    apply validated_inr. split; [done|]. by exists b, elems.
  - intros key other. rewrite unlimited_POST_catch, unlimited_handle_validated.
    destruct (validated req) as [[r'|messages]|e];
      cbn -[Unlimited.getAiClient]; [done| |done].
    destruct (Unlimited.getAiClient (Some key)) as [ai|]; cbn; [|done].
    by destruct (other ai _).
Qed.

Lemma unlimited_missing_key_witness :
  Unlimited.POST (Some []) (λ _, echo_provider) hello_request =
    error_response 500 [] (lit "Missing GEMINI_API_KEY environment variable.").
Proof.
  destruct (unlimited_missing_key (Some []) (λ _, echo_provider) hello_request)
    as (_ & _ & Hmissing & _).
  - right. reflexivity.
  - apply (Hmissing (VObj [(lit "messages", VArr [message_of "user" (lit "hello")])])
             [message_of "user" (lit "hello")]
             [{| role := VStr (lit "user"); content := lit "hello" |}]).
    + reflexivity.
    + reflexivity.
    + vm_compute. reflexivity.
    + discriminate.
Defined.

(** X14. The two routes differ in three things only. Where the rate
    limiter lets a request through and an API key is set, and the two
    providers do the same with the two payloads (which differ in the
    system instruction only), the two answers have the same status, and
    they are equal unless that status is 500: there the rate-limited
    route says "Server error" and the other gives the message of the
    exception. *)
Theorem routes_agree (limited : provider) (plain : jsstring → provider)
    (key : jsstring) (now : Z) (req : Request) (hits : gmap jsstring entry) :
  ok (rateLimit (client_ip req) 30 60000 now hits).2 = true →
  key ≠ [] →
  (∀ messages, limited (generation_request messages) = plain key (plain_request messages)) →
  let r := (POST limited now req hits).2 in
  let r' := Unlimited.POST (Some key) plain req in
  status r = status r' ∧
  (status r ≠ 500 → r = r') ∧
  (status r = 500 →
   r = error_response 500 [] (lit "Server error") ∧
   ∃ e, Unlimited.handle (Some key) plain req = Throw e ∧
        handle limited req = Throw e ∧
        r' = error_response 500 []
               (match message e with VStr s => s | _ => lit "Server error" end)).
Proof.
  intros Hok Hkey Hsame r r'. unfold r, r'.
  rewrite POST_admitted, unlimited_POST_catch by done.
  rewrite handle_validated, unlimited_handle_validated.
  assert (Unlimited.getAiClient (Some key) = Ok key) as Hclient.
  { unfold Unlimited.getAiClient. by rewrite decide_False. }
  destruct (validated req) as [[r0|messages]|e] eqn:Hv;
    cbn -[Unlimited.getAiClient].
  - apply validated_inl in Hv. split_and!; [done|done|]. intros H500. congruence.
  - rewrite Hclient. simpl. rewrite <- Hsame.
    destruct (limited (generation_request messages)) as [text|e]; simpl.
    + split_and!; [done|done|done].
    + split_and!; [done|done|]. intros _. split; [done|]. by exists e.
  - split_and!; [done|done|]. intros _. split; [done|]. by exists e.
Qed.

Lemma routes_agree_witness :
  status (POST echo_provider 0 hello_request ∅).2 =
  status (Unlimited.POST (Some (lit "k")) (λ _, echo_provider) hello_request).
Proof.
  destruct (routes_agree echo_provider (λ _, echo_provider) (lit "k") 0 hello_request ∅)
    as (Hstatus & _).
  - reflexivity.
  - discriminate.
  - reflexivity.
  - exact Hstatus.
Defined.

(** ** The chat page: [canSend], [send], [clearChat] *)

Lemma trim_nonempty_length (s : jsstring) :
  bool_decide (0 < length (trim s))%nat = negb (bool_decide (trim s = [])).
Proof. by destruct (trim s). Qed.

(** X15. The send button is enabled exactly when [send] would act:
    [canSend] holds if and only if [send] does not return early. *)
Theorem canSend_iff_send_acts (st : Page.State) :
  Page.canSend st = true ↔ is_Some (Page.send_request st).
Proof.
  unfold Page.canSend, Page.send_request. rewrite trim_nonempty_length.
  destruct (bool_decide (trim (Page.input st) = [])), (Page.loading st); simpl;
    split; try done; try (by intros [? ?]); by eexists.
Qed.

Lemma canSend_iff_send_acts_witness :
  is_Some (Page.send_request (Page.setInput (lit " hi ") Page.initial)).
Proof.
  apply (canSend_iff_send_acts (Page.setInput (lit " hi ") Page.initial)).
  reflexivity.
Defined.

(** X16. When [send] acts, no request was in flight, and the page now
    shows the old conversation followed by one user message: the input
    without the white space around it, which is not empty. That
    conversation is the body of the request, the input is cleared, and
    until the request ends neither the button nor [send] itself starts
    another one, whatever is typed. *)
Theorem send_request_effect (st st1 : Page.State) (next : list Page.Msg) :
  Page.send_request st = Some (st1, next) →
  Page.loading st = false ∧
  trim (Page.input st) ≠ [] ∧
  (∀ c, head (trim (Page.input st)) = Some c ∨ last (trim (Page.input st)) = Some c →
        is_js_space c = false) ∧
  next = Page.messages st ++
           [{| Page.role := Page.user; Page.content := trim (Page.input st) |}] ∧
  st1 = {| Page.messages := next; Page.input := []; Page.loading := true |} ∧
  Page.canSend st1 = false ∧
  (∀ typed, Page.canSend (Page.setInput typed st1) = false ∧
            Page.send_request (Page.setInput typed st1) = None).
Proof.
  unfold Page.send_request.
  destruct (bool_decide (trim (Page.input st) = [])) eqn:Hblank; simpl; [done|].
  destruct (Page.loading st) eqn:Hloading; simpl; [done|].
  intros [= <- <-]. apply bool_decide_eq_false in Hblank.
  split_and!; try done.
  - intros c. apply trim_ends.
  - intros typed. unfold Page.canSend, Page.send_request. simpl.
    by rewrite !orb_true_r, andb_false_r.
Qed.

Lemma send_request_effect_witness :
  let st := Page.setInput (lit "  hello ") Page.initial in
  ∃ st1 next,
    Page.send_request st = Some (st1, next) ∧
    next = Page.messages st ++
             [{| Page.role := Page.user; Page.content := lit "hello" |}] ∧
    Page.canSend st1 = false.
Proof.
  intros st. eexists _, _. split; [vm_compute; reflexivity|].
  destruct (send_request_effect st _ _ eq_refl) as (_ & _ & _ & Hnext & _ & Hcan & _).
  split; [exact Hnext|exact Hcan].
Defined.

(** X17. However the request ends (an answer, an HTTP error, a body
    that does not parse, a failed fetch), [send] appends exactly one
    message to whatever the conversation is by then: it is the
    assistant's, its content is not empty, the messages before it are
    untouched, and [loading] is off again. *)
Theorem send_settle_appends_one (o : Page.fetched) (st : Page.State) :
  ∃ m,
    Page.messages (Page.send_settle o st) = Page.messages st ++ [m] ∧
    Page.role m = Page.assistant ∧
    Page.content m ≠ [] ∧
    Page.loading (Page.send_settle o st) = false ∧
    Page.input (Page.send_settle o st) = Page.input st.
Proof.
  unfold Page.send_settle. eexists. split; [done|].
  destruct (Page.reply o) as [m|e] eqn:Hreply; simpl; [|by split_and!].
  split_and!; try done.
  - unfold Page.reply in Hreply. destruct o as [e|status text json]; [done|].
    destruct (negb _); [done|]. destruct json as [data|]; simpl in Hreply; [|done].
    by injection Hreply as <-.
  - unfold Page.reply in Hreply. destruct o as [e|status text json]; [done|].
    destruct (negb _); [done|]. destruct json as [data|]; simpl in Hreply; [|done].
    injection Hreply as <-. simpl.
    case_bool_decide as Hblank; [done|exact Hblank].
Qed.

(** ** The page and the endpoint together *)

Lemma clamp_one_wire (m : Page.Msg) :
  clamp_one (wire_message m) =
    Ok {| role := VStr (role_name (Page.role m));
          content := take 4000 (Page.content m) |}.
Proof. apply clamp_one_Ok. by eexists _, _. Qed.

Lemma clamp_window_wire (ms : list Page.Msg) :
  ∃ out, clamp_window (wire_message <$> ms) = Ok out.
Proof.
  unfold clamp_window.
  destruct (map_throwing_total clamp_one (wire_message <$> ms)) as [trimmed ->];
    [|by eexists].
  apply Forall_fmap, Forall_forall. intros m _. eexists. apply clamp_one_wire.
Qed.

(** The body of the page clamps to a list that ends with the message
    the user just sent. *)
Lemma clamp_page_body (ms : list Page.Msg) (text : jsstring) :
  text ≠ [] →
  (∀ c, head text = Some c → is_js_space c = false) →
  ∃ older,
    clampMessages
      (wire_message <$> ms ++ [{| Page.role := Page.user; Page.content := text |}])
    = Ok (older ++ [{| role := VStr (lit "user"); content := take 4000 text |}]).
Proof.
  intros Hne Hhead. rewrite clampMessages_window.
  rewrite clampMessages_short by (by apply (js_slice_last_length 20)).
  unfold MAX_MESSAGES. rewrite js_slice_last by lia.
  set (u := {| Page.role := Page.user; Page.content := text |}).
  set (k := (length (wire_message <$> ms ++ [u]) - Z.to_nat 20)%nat).
  assert (k ≤ length (wire_message <$> ms))%nat as Hk.
  { unfold k. rewrite !length_fmap, length_app. simpl. lia. }
  rewrite fmap_app, drop_app_le by done.
  rewrite <- fmap_drop, clamp_window_app.
  destruct (clamp_window_wire (drop k ms)) as [older ->].
  exists older.
  set (u' := {| role := VStr (lit "user"); content := take 4000 text |}).
  assert (clamp_window (wire_message <$> [u]) = Ok [u']) as ->; [|done].
  unfold clamp_window.
  change (map_throwing clamp_one (wire_message <$> [u]))
    with (y ← clamp_one (wire_message u); Ok [y]).
  rewrite clamp_one_wire.
  change (Ok (filter usable [u']) = Ok [u']).
  rewrite filter_cons_True; [done|].
  apply usable_iff. simpl. destruct text as [|c text]; [done|].
  intros Hblank. inversion Hblank as [|? ? Hc _]; subst.
  rewrite (Hhead c) in Hc; done.
Qed.

(** X18. A request the page sends is never answered 400: once past the
    rate limiter it reaches the provider, with a payload whose last
    message is the user's input, trimmed and cut to 4000 code units. *)
Theorem page_request_is_forwarded (st st1 : Page.State) (next : list Page.Msg)
    (generateContent : provider) (now : Z) (forwarded real_ip : option jsstring)
    (hits : gmap jsstring entry) :
  Page.send_request st = Some (st1, next) →
  let r := (POST generateContent now (page_request forwarded real_ip next) hits).2 in
  status r ≠ 400 ∧
  (status r ≠ 429 →
   ∃ older,
     let messages :=
       older ++ [{| role := VStr (lit "user");
                    content := take 4000 (trim (Page.input st)) |}] in
     clampMessages (wire_message <$> next) = Ok messages ∧
     r = match generateContent (generation_request messages) with
         | Ok text => text_response (default [] text)
         | Throw _ => error_response 500 [] (lit "Server error")
         end).
Proof.
  unfold Page.send_request.
  destruct (bool_decide (trim (Page.input st) = [])) eqn:Hblank; simpl; [done|].
  destruct (Page.loading st); simpl; [done|].
  intros [= <- <-]. apply bool_decide_eq_false in Hblank.
  destruct (clamp_page_body (Page.messages st) (trim (Page.input st)) Hblank)
    as [older Hclamp].
  { intros c Hc. apply (trim_ends (Page.input st)). by left. }
  set (next := Page.messages st ++ _) in *.
  set (messages := older ++ _) in *.
  assert (∀ hok : ok (rateLimit (client_ip (page_request forwarded real_ip next))
                        30 60000 now hits).2 = true,
    (POST generateContent now (page_request forwarded real_ip next) hits).2 =
      match generateContent (generation_request messages) with
      | Ok text => text_response (default [] text)
      | Throw _ => error_response 500 [] (lit "Server error")
      end) as Hforward.
  { intros Hok.
    apply (POST_forwarding _ _ _ _ (wire_body next) (wire_message <$> next) messages);
      try done. unfold messages. by destruct older. }
  destruct (ok (rateLimit (client_ip (page_request forwarded real_ip next))
                  30 60000 now hits).2) eqn:Hok.
  - rewrite Hforward by done. split.
    + by destruct (generateContent _).
    + intros _. by exists older.
  - rewrite POST_limited by done. split; [done|]. intros H. by destruct H.
Qed.

Lemma page_request_is_forwarded_witness :
  let st := Page.setInput (lit "  hello ") Page.initial in
  ∃ st1 next,
    Page.send_request st = Some (st1, next) ∧
    status (POST echo_provider 0 (page_request None None next) ∅).2 ≠ 400.
Proof.
  intros st. eexists _, _. split; [vm_compute; reflexivity|].
  exact (proj1 (page_request_is_forwarded st _ _ echo_provider 0 None None ∅ eq_refl)).
Defined.

Lemma send_request_Some (st st1 : Page.State) (next : list Page.Msg) :
  Page.send_request st = Some (st1, next) →
  Page.loading st = false ∧
  next = Page.messages st ++
           [{| Page.role := Page.user; Page.content := trim (Page.input st) |}] ∧
  st1 = {| Page.messages := next; Page.input := []; Page.loading := true |}.
Proof.
  unfold Page.send_request.
  destruct (bool_decide (trim (Page.input st) = [])); simpl; [done|].
  destruct (Page.loading st); simpl; [done|].
  by intros [= <- <-].
Qed.

Lemma POST_cases (generateContent : provider) (now : Z) (req : Request)
    (hits : gmap jsstring entry) :
  (∃ text, (POST generateContent now req hits).2 = text_response text) ∨
  (∃ code extra msg,
     (POST generateContent now req hits).2 = error_response code extra msg ∧
     (code = 400 ∨ code = 429 ∨ code = 500)).
Proof.
  destruct (ok (rateLimit (client_ip req) 30 60000 now hits).2) eqn:Hok.
  - rewrite POST_admitted by done.
    destruct (handle generateContent req) as [r|e] eqn:Hr.
    + apply handle_shape in Hr as [-> | [-> | [text ->]]].
      * right. eexists _, _, _. split; [done|by left].
      * right. eexists _, _, _. split; [done|by left].
      * left. by eexists.
    + right. eexists _, _, _. split; [done|by right; right].
  - rewrite POST_limited by done.
    right. eexists _, _, _. split; [done|by right; left].
Qed.

Lemma settle_text (text raw : jsstring) (st : Page.State) :
  Page.send_settle (received (text_response text) raw) st =
    {| Page.messages :=
         Page.messages st ++
           [{| Page.role := Page.assistant;
               Page.content := if bool_decide (trim text = [])
                               then lit "(no response)" else trim text |}];
       Page.input := Page.input st;
       Page.loading := false |}.
Proof. reflexivity. Qed.

Lemma settle_error (code : Z) (extra : list (jsstring * jsstring))
    (msg raw : jsstring) (st : Page.State) :
  code = 400 ∨ code = 429 ∨ code = 500 →
  Page.send_settle (received (error_response code extra msg) raw) st =
    {| Page.messages :=
         Page.messages st ++
           [{| Page.role := Page.assistant;
               Page.content :=
                 lit "Sorry " ++ [8212%N] ++ lit " something went wrong." ++ [10%N] ++
                 (if bool_decide (raw = [])
                  then lit "Request failed (" ++ js_String code ++ lit ")"
                  else raw) |}];
       Page.input := Page.input st;
       Page.loading := false |}.
Proof. intros [-> | [-> | ->]]; reflexivity. Qed.

(** X19. One whole turn. When [send] acts and the answer of the
    endpoint comes back, the conversation is the old one followed by
    the user's trimmed input and by one assistant message, and the page
    is idle again with an empty input. After a 200 the assistant message
    is the returned text, trimmed, or "(no response)" if nothing is left
    of it; after any other answer it is the failure notice followed by
    the text of the response body, or by "Request failed (status)" when
    that text is empty. *)
Theorem full_turn (st st1 : Page.State) (next : list Page.Msg)
    (generateContent : provider) (now : Z) (forwarded real_ip : option jsstring)
    (hits : gmap jsstring entry) (raw : jsstring) :
  Page.send_request st = Some (st1, next) →
  let r := (POST generateContent now (page_request forwarded real_ip next) hits).2 in
  let st2 := Page.send_settle (received r raw) st1 in
  ∃ answer,
    Page.messages st2 =
      Page.messages st ++
        [{| Page.role := Page.user; Page.content := trim (Page.input st) |}; answer] ∧
    Page.role answer = Page.assistant ∧
    Page.loading st2 = false ∧
    Page.input st2 = [] ∧
    (status r = 200 →
     ∃ text, body r = VObj [(lit "text", VStr text)] ∧
             Page.content answer =
               if bool_decide (trim text = []) then lit "(no response)" else trim text) ∧
    (status r ≠ 200 →
     Page.content answer =
       lit "Sorry " ++ [8212%N] ++ lit " something went wrong." ++ [10%N] ++
       (if bool_decide (raw = [])
        then lit "Request failed (" ++ js_String (status r) ++ lit ")"
        else raw)).
Proof.
  intros (_ & Hnext & ->)%send_request_Some r st2. unfold st2, r. clear st2 r.
  destruct (POST_cases generateContent now (page_request forwarded real_ip next) hits)
    as [[text ->] | (code & extra & msg & -> & Hcode)].
  - rewrite settle_text. eexists. cbn [Page.messages Page.loading Page.input Page.role Page.content].
    rewrite Hnext, <- app_assoc.
    split_and!; try done. intros _. by exists text.
  - rewrite settle_error by done. eexists. cbn [Page.messages Page.loading Page.input Page.role Page.content].
    rewrite Hnext, <- app_assoc.
    split_and!; try done.
    intros H200. destruct Hcode as [-> | [-> | ->]]; done.
Qed.

Lemma full_turn_witness :
  let st := Page.setInput (lit "  hello ") Page.initial in
  ∃ st1 next answer,
    Page.send_request st = Some (st1, next) ∧
    Page.messages
      (Page.send_settle
         (received (POST echo_provider 0 (page_request None None next) ∅).2 []) st1)
    = Page.messages st ++
        [{| Page.role := Page.user; Page.content := trim (Page.input st) |}; answer] ∧
    Page.role answer = Page.assistant.
Proof.
  intros st.
  destruct (full_turn st _ _ echo_provider 0 None None ∅ [] eq_refl)
    as (answer & Hmsgs & Hrole & _).
  eexists _, _, answer. split; [reflexivity|]. split; [exact Hmsgs|exact Hrole].
Defined.

(** ** The conversation the page keeps *)

Lemma even_succ_negb (n : nat) : Nat.even (S n) = negb (Nat.even n).
Proof. by rewrite Nat.even_succ, <- Nat.negb_even. Qed.

Lemma page_ok_snoc (ms : list Page.Msg) (m : Page.Msg) (busy : bool) (value : jsstring) :
  ms ≠ [] →
  (∀ i x, ms !! i = Some x → Page.role x = role_at i) →
  Page.role m = role_at (length ms) →
  busy = Nat.even (length (ms ++ [m])) →
  page_ok {| Page.messages := ms ++ [m]; Page.input := value; Page.loading := busy |}.
Proof.
  intros Hne Hroles Hm Hbusy. split_and!; simpl; [by destruct ms| |done].
  intros i x [[_ Hx] | [-> <-]]%lookup_snoc_Some; [by apply Hroles|done].
Qed.

Lemma page_step_ok (st st' : Page.State) :
  page_ok st → page_step st st' → page_ok st'.
Proof.
  intros (Hne & Hroles & Hbusy) Hstep.
  destruct Hstep as [st st' next Hsend | st o Hloading | st Hloading | st value].
  - unfold Page.send_request in Hsend.
    destruct (bool_decide (trim (Page.input st) = [])); simpl in Hsend; [done|].
    destruct (Page.loading st) eqn:Hloading; simpl in Hsend; [done|].
    injection Hsend as <- <-. apply page_ok_snoc; try done.
    + unfold role_at. by rewrite <- Hbusy.
    + rewrite length_app. simpl. rewrite Nat.add_1_r, even_succ_negb, <- Hbusy. done.
  - unfold Page.send_settle. apply page_ok_snoc; try done.
    + unfold role_at. rewrite <- Hbusy, Hloading.
      destruct (Page.reply o) as [m|] eqn:Hreply; [|done].
      unfold Page.reply in Hreply. destruct o as [e|status text json]; [done|].
      destruct (negb _); [done|]. destruct json; simpl in Hreply; [|done].
      by injection Hreply as <-.
    + rewrite length_app. simpl. rewrite Nat.add_1_r, even_succ_negb, <- Hbusy.
      by rewrite Hloading.
  - split_and!; simpl; [done| |done].
    intros i x [-> <-]%list_lookup_singleton_Some. done.
  - done.
Qed.

(** X20. Whatever the user does (typing, sending, clearing, with the
    requests ending in any way), the conversation of the page is never
    empty, starts with a message of the assistant and alternates between
    assistant and user, and a request is in flight exactly when the last
    message is the user's. In particular every body the page sends ends
    with a user message and holds an even number of messages. *)
Theorem page_conversation_alternates (st : Page.State) :
  rtc page_step Page.initial st →
  page_ok st ∧
  (∀ st1 next,
     Page.send_request st = Some (st1, next) →
     Nat.even (length next) = true ∧
     (∀ i m, next !! i = Some m → Page.role m = role_at i) ∧
     ∃ m, last next = Some m ∧ Page.role m = Page.user).
Proof.
  intros Hreach.
  assert (page_ok st) as Hok.
  { eapply (rtc_ind_r page_ok); [| |exact Hreach].
    - split_and!; simpl; [done| |done].
      intros i x [-> <-]%list_lookup_singleton_Some. done.
    - intros st' st'' _ Hstep IH. by apply (page_step_ok st'). }
  split; [done|]. intros st1 next Hsend.
  assert (page_ok st1) as (Hne1 & Hroles1 & Hbusy1).
  { apply (page_step_ok st); [done|]. by econstructor. }
  unfold Page.send_request in Hsend.
  destruct (bool_decide (trim (Page.input st) = [])); simpl in Hsend; [done|].
  destruct (Page.loading st); simpl in Hsend; [done|].
  injection Hsend as <- <-. simpl in *. split_and!; [done|done|].
  eexists. split; [apply last_snoc|done].
Qed.

Lemma page_conversation_alternates_witness :
  page_ok (Page.clearChat (Page.setInput (lit "hi") Page.initial)).
Proof.
  apply (page_conversation_alternates
           (Page.clearChat (Page.setInput (lit "hi") Page.initial))).
  eapply rtc_l; [apply (step_typing _ (lit "hi"))|].
  eapply rtc_l; [apply step_clear; reflexivity|].
  apply rtc_refl.
Defined.
